(** * Contact-form backend (api/contact.ts): a shallow embedding

    The development follows the source file top to bottom:
    JavaScript strings, the in-memory rate limiter ([rateLimit]),
    the e-mail check ([isValidEmail]), header sanitising
    ([escapeHeaderText]), ticket generation ([makeTicket]) and the
    request handler ([handler]) with its two sequential sends. *)

From Stdlib Require Import ZArith NArith QArith List Ascii String Lia.
From stdpp Require Import base gmap list numbers.

Local Open Scope Z_scope.

(** ** JavaScript strings

    A JavaScript string is a sequence of UTF-16 code units; [length],
    [slice] and [trim] all count code units.  Code units are kept as
    [N]; literals of the source are written as Rocq strings (UTF-8
    bytes) and decoded by [js]. *)

Module JS.

Abbreviation char16 := N (only parsing).
Abbreviation jsstring := (list N) (only parsing).

(** UTF-8 bytes to UTF-16 code units (used for the literals only). *)
Fixpoint utf16_of_utf8 (bs : list N) : jsstring :=
  match bs with
  | [] => []
  | b0 :: r0 =>
    if (b0 <? 0x80)%N then b0 :: utf16_of_utf8 r0
    else match r0 with
    | [] => []
    | b1 :: r1 =>
      if (b0 <? 0xE0)%N then
        N.lor (N.shiftl (N.land b0 0x1F) 6) (N.land b1 0x3F) :: utf16_of_utf8 r1
      else match r1 with
      | [] => []
      | b2 :: r2 =>
        if (b0 <? 0xF0)%N then
          N.lor (N.shiftl (N.land b0 0x0F) 12)
                (N.lor (N.shiftl (N.land b1 0x3F) 6) (N.land b2 0x3F))
            :: utf16_of_utf8 r2
        else match r2 with
        | [] => []
        | b3 :: r3 =>
          let cp := N.lor (N.shiftl (N.land b0 0x07) 18)
                   (N.lor (N.shiftl (N.land b1 0x3F) 12)
                   (N.lor (N.shiftl (N.land b2 0x3F) 6) (N.land b3 0x3F))) in
          let v := (cp - 0x10000)%N in
          (0xD800 + N.shiftr v 10)%N :: (0xDC00 + N.land v 0x3FF)%N
            :: utf16_of_utf8 r3
        end
      end
    end
  end.

Fixpoint bytes_of_string (s : string) : list N :=
  match s with
  | EmptyString => []
  | String a r => N_of_ascii a :: bytes_of_string r
  end.

Definition js (s : string) : jsstring := utf16_of_utf8 (bytes_of_string s).

(** WhiteSpace and LineTerminator code units: what [String.prototype.trim]
    strips and what [\s] matches. *)
Definition isWhiteSpace (c : char16) : bool :=
  ((c =? 0x09) || (c =? 0x0A) || (c =? 0x0B) || (c =? 0x0C) || (c =? 0x0D)
   || (c =? 0x20) || (c =? 0xA0) || (c =? 0x1680)
   || ((0x2000 <=? c) && (c <=? 0x200A))
   || (c =? 0x2028) || (c =? 0x2029) || (c =? 0x202F) || (c =? 0x205F)
   || (c =? 0x3000) || (c =? 0xFEFF))%N.

Fixpoint trimStart (s : jsstring) : jsstring :=
  match s with
  | [] => []
  | c :: r => if isWhiteSpace c then trimStart r else s
  end.

Definition trimEnd (s : jsstring) : jsstring := rev (trimStart (rev s)).

(** [s.trim()] *)
Definition trim (s : jsstring) : jsstring := trimEnd (trimStart s).

(** A string that [trim] has nothing to strip from. *)
Definition trimmed (s : jsstring) : Prop := trimStart s = s ∧ trimEnd s = s.

(** [s.slice(0, n)] for [0 <= n] *)
Definition slice0 (n : nat) (s : jsstring) : jsstring := take n s.

(** [s.slice(a, b)] for [0 <= a <= b] *)
Definition slice (a b : nat) (s : jsstring) : jsstring := take (b - a) (drop a s).

(** [xs.join(sep)] *)
Fixpoint join (sep : jsstring) (xs : list jsstring) : jsstring :=
  match xs with
  | [] => []
  | [x] => x
  | x :: r => x ++ sep ++ join sep r
  end.

(** [s.split(",")[0]]: the part before the first comma. *)
Fixpoint before_comma (s : jsstring) : jsstring :=
  match s with
  | [] => []
  | c :: r => if (c =? 0x2C)%N then [] else c :: before_comma r
  end.

(** Truthiness of a string: non-empty. *)
Definition truthy (s : jsstring) : bool :=
  match s with [] => false | _ => true end.

(** [String(x || "")] for a field that is a string or absent. *)
Definition orEmpty (x : option jsstring) : jsstring := default [] x.

(** [!x] for an optional string (an environment variable, a field). *)
Definition missing (x : option jsstring) : bool :=
  match x with Some (_ :: _) => false | _ => true end.

End JS.
Import JS.

(** ** The rate limiter *)

Module RateLimiter.

Definition RATE_LIMIT_WINDOW_MS : Z := 60000.
Definition RATE_LIMIT_MAX : Z := 3.

Record Entry := mkEntry { count : Z; resetAt : Z }.

Abbreviation Bucket := (gmap (list N) Entry) (only parsing).

(** [{ ok: true }] or [{ ok: false, retryAfterMs }] *)
Inductive RateResult :=
| Allowed
| Denied (retryAfterMs : Z).

(** [rateLimit(ip)], with [Date.now()] passed as [now] and the module-level
    [ipBucket] threaded through.  Every stored object is created by the
    object literal of the first branch for one key and is reachable through
    that key only, so the in-place [cur.count += 1] is an update of the
    entry of [ip]. *)
Definition rateLimit (now : Z) (ip : jsstring) (ipBucket : Bucket)
  : RateResult * Bucket :=
  let fresh :=
    (Allowed,
     <[ip := {| count := 1; resetAt := now + RATE_LIMIT_WINDOW_MS |}]> ipBucket) in
  match ipBucket !! ip with
  | None => fresh
  | Some cur =>
    if now >? resetAt cur then fresh
    else if count cur >=? RATE_LIMIT_MAX
    then (Denied (resetAt cur - now), ipBucket)
    else (Allowed,
          <[ip := {| count := count cur + 1; resetAt := resetAt cur |}]> ipBucket)
  end.

(** The fixed-window counter as the specification words it. *)
Inductive fixed_window (now : Z) (key : jsstring) (t : Bucket)
  : RateResult -> Bucket -> Prop :=
| fw_open :
    (t !! key = None ∨ ∃ e, t !! key = Some e ∧ now > resetAt e) →
    fixed_window now key t Allowed
      (<[key := {| count := 1; resetAt := now + 60000 |}]> t)
| fw_deny e :
    t !! key = Some e → ¬ now > resetAt e → count e >= 3 →
    fixed_window now key t (Denied (resetAt e - now)) t
| fw_count e :
    t !! key = Some e → ¬ now > resetAt e → ¬ count e >= 3 →
    fixed_window now key t Allowed
      (<[key := {| count := count e + 1; resetAt := resetAt e |}]> t).

(** A run of checks: each event is a key and the clock reading of its check. *)
Fixpoint run (evs : list (jsstring * Z)) (b : Bucket) : list RateResult * Bucket :=
  match evs with
  | [] => ([], b)
  | (ip, now) :: rest =>
    let '(r, b1) := rateLimit now ip b in
    let '(rs, b2) := run rest b1 in
    (r :: rs, b2)
  end.

(** What a run shows to one client: the outcomes of its own checks, and
    the clock readings of those checks. *)
Fixpoint outcomes (ip : jsstring) (evs : list (jsstring * Z)) (b : Bucket)
  : list RateResult :=
  match evs with
  | [] => []
  | (k, now) :: rest =>
    let '(r, b1) := rateLimit now k b in
    if decide (k = ip) then r :: outcomes ip rest b1 else outcomes ip rest b1
  end.

Fixpoint times (ip : jsstring) (evs : list (jsstring * Z)) : list Z :=
  match evs with
  | [] => []
  | (k, now) :: rest =>
    if decide (k = ip) then now :: times ip rest else times ip rest
  end.

(** A check at [t] falls in the window opened at [t0]: not before it, and
    the window has not expired ([t > t0 + RATE_LIMIT_WINDOW_MS] is false). *)
Definition in_window (t0 t : Z) : Prop :=
  t0 <= t ∧ ¬ t > t0 + RATE_LIMIT_WINDOW_MS.

(** Every stored entry has a count between 1 and [RATE_LIMIT_MAX]. *)
Definition counts_bounded (b : Bucket) : Prop :=
  ∀ k e, b !! k = Some e → 1 <= count e <= 3.

End RateLimiter.
Import RateLimiter.

(** ** Regular expressions

    The patterns of the source and of the specification are anchored
    ([^...$]) and use character classes, concatenation and repetition
    only; [matches] decides them by derivatives. *)

Module Regex.

Inductive re :=
| Void
| Eps
| Cls (p : char16 -> bool)
| Cat (r1 r2 : re)
| Alt (r1 r2 : re)
| Star (r : re).

(** [r+] *)
Definition Plus (r : re) : re := Cat r (Star r).

(** [r{n}] *)
Fixpoint Rep (n : nat) (r : re) : re :=
  match n with
  | O => Eps
  | S n' => Cat r (Rep n' r)
  end.

Definition Chr (c : char16) : re := Cls (N.eqb c).

Fixpoint nullable (r : re) : bool :=
  match r with
  | Void => false
  | Eps => true
  | Cls _ => false
  | Cat r1 r2 => nullable r1 && nullable r2
  | Alt r1 r2 => nullable r1 || nullable r2
  | Star _ => true
  end.

Fixpoint deriv (c : char16) (r : re) : re :=
  match r with
  | Void => Void
  | Eps => Void
  | Cls p => if p c then Eps else Void
  | Cat r1 r2 =>
    if nullable r1 then Alt (Cat (deriv c r1) r2) (deriv c r2)
    else Cat (deriv c r1) r2
  | Alt r1 r2 => Alt (deriv c r1) (deriv c r2)
  | Star r1 => Cat (deriv c r1) (Star r1)
  end.

(** [/^r$/.test(s)] *)
Fixpoint matches (r : re) (s : jsstring) : bool :=
  match s with
  | [] => nullable r
  | c :: s' => matches (deriv c r) s'
  end.

(** The language of a pattern. *)
Inductive lang : re -> jsstring -> Prop :=
| lang_eps : lang Eps []
| lang_cls p c : p c = true -> lang (Cls p) [c]
| lang_cat r1 r2 s1 s2 : lang r1 s1 -> lang r2 s2 -> lang (Cat r1 r2) (s1 ++ s2)
| lang_alt_l r1 r2 s : lang r1 s -> lang (Alt r1 r2) s
| lang_alt_r r1 r2 s : lang r2 s -> lang (Alt r1 r2) s
| lang_star_nil r : lang (Star r) []
| lang_star_app r s1 s2 : lang r s1 -> lang (Star r) s2 -> lang (Star r) (s1 ++ s2).

Definition isUpper (c : char16) : bool := ((0x41 <=? c) && (c <=? 0x5A))%N.
Definition isDigit (c : char16) : bool := ((0x30 <=? c) && (c <=? 0x39))%N.
Definition isUpperOrDigit (c : char16) : bool := isUpper c || isDigit c.

End Regex.
Import Regex.

(** ** Field helpers of the source *)

(** [[^\s@]] *)
Definition notSpaceNorAt (c : char16) : bool :=
  negb (isWhiteSpace c) && negb (c =? 0x40)%N.

(** [/^[^\s@]+@[^\s@]+\.[^\s@]+$/] *)
Definition emailPattern : re :=
  Cat (Plus (Cls notSpaceNorAt))
 (Cat (Chr 0x40)
 (Cat (Plus (Cls notSpaceNorAt))
 (Cat (Chr 0x2E)
      (Plus (Cls notSpaceNorAt))))).

Definition isValidEmail (email : jsstring) : bool := matches emailPattern email.

Definition isCRLF (c : char16) : bool := ((c =? 0x0D) || (c =? 0x0A))%N.

(** [s.replace(/[\r\n]+/g, " ")]: scanning left to right, the first unit of
    a run of CR/LF emits the space and the rest of the run is consumed by
    the same match ([inMatch]). *)
Fixpoint replaceCRLF (inMatch : bool) (s : jsstring) : jsstring :=
  match s with
  | [] => []
  | c :: r =>
    if isCRLF c then
      if inMatch then replaceCRLF true r else 0x20%N :: replaceCRLF true r
    else c :: replaceCRLF false r
  end.

Definition escapeHeaderText (s : jsstring) : jsstring :=
  trim (replaceCRLF false s).

(** The specification's wording of the collapse: units outside CR/LF are
    kept, and every maximal non-empty run of CR/LF becomes one space. *)
Inductive collapsed : jsstring -> jsstring -> Prop :=
| collapsed_nil : collapsed [] []
| collapsed_keep c s t :
    isCRLF c = false -> collapsed s t -> collapsed (c :: s) (c :: t)
| collapsed_run run s t :
    run ≠ [] -> forallb isCRLF run = true ->
    (∀ c s', s = c :: s' -> isCRLF c = false) ->
    collapsed s t -> collapsed (run ++ s) (0x20%N :: t).

Definition noCRLF (s : jsstring) : Prop := ∀ c, c ∈ s -> isCRLF c = false.

(** ** Ticket generation *)

Module Ticket.

(** Decimal rendering of an integer ([String(n)], [`${n}`]). *)
Fixpoint digits (fuel : nat) (n : N) (acc : jsstring) : jsstring :=
  let acc' := (0x30 + n mod 10)%N :: acc in
  match fuel with
  | O => acc'
  | S f => if (n <? 10)%N then acc' else digits f (n / 10)%N acc'
  end.

Definition decimal (z : Z) : jsstring :=
  if z <? 0 then 0x2D%N :: digits (N.size_nat (Z.to_N (- z))) (Z.to_N (- z)) []
  else digits (N.size_nat (Z.to_N z)) (Z.to_N z) [].

(** [s.padStart(2, "0")] *)
Definition padStart2 (s : jsstring) : jsstring :=
  repeat 0x30%N (2 - length s) ++ s.

(** The local calendar fields read off [new Date()]; [getMonth] is 0-based. *)
Record LocalDate := mkDate { getFullYear : Z; getMonth : Z; getDate : Z }.

(** [Math.random()] yields a double in [0, 1).  The ticket only depends on
    its radix-36 rendering, so a draw is represented by the fractional
    radix-36 digits that [toString(36)] prints for it: [[18]] is 0.5
    (printed [0.i]) and [[]] is 0 (printed [0], without a point). *)
Definition digit36 (d : N) : char16 :=
  (if d <? 10 then 0x30 + d else 0x61 + (d - 10))%N.

Definition toString36 (frac : list N) : jsstring :=
  match frac with
  | [] => js "0"
  | _ => js "0." ++ map digit36 frac
  end.

(** The number a digit list stands for. *)
Fixpoint value36 (frac : list N) : Q :=
  match frac with
  | [] => 0%Q
  | d :: r => ((inject_Z (Z.of_N d) + value36 r) / 36)%Q
  end.

(** [toUpperCase] on the ASCII range, which is all a radix-36 rendering
    contains. *)
Definition upper (c : char16) : char16 :=
  (if (0x61 <=? c) && (c <=? 0x7A) then c - 0x20 else c)%N.

Definition toUpperCase (s : jsstring) : jsstring := map upper s.

Definition makeTicket (prefix : jsstring) (d : LocalDate) (rnd : list N)
  : jsstring :=
  let y := getFullYear d in
  let m := padStart2 (decimal (getMonth d + 1)) in
  let day := padStart2 (decimal (getDate d)) in
  let rand := toUpperCase (slice 2 8 (toString36 rnd)) in
  prefix ++ js "-" ++ decimal y ++ m ++ day ++ js "-" ++ rand.

(** [^[A-Z]+-\d{8}-[A-Z0-9]{6}$], the format the specification gives. *)
Definition ticketPattern : re :=
  Cat (Plus (Cls isUpper))
 (Cat (Chr 0x2D)
 (Cat (Rep 8 (Cls isDigit))
 (Cat (Chr 0x2D)
      (Rep 6 (Cls isUpperOrDigit))))).

(** The random part of a ticket: what follows the second hyphen of
    [PREFIX-YYYYMMDD-RAND] for a prefix without hyphens. *)
Definition randomSuffix (rnd : list N) : jsstring :=
  toUpperCase (slice 2 8 (toString36 rnd)).

End Ticket.
Import Ticket.

(** ** The request handler *)

Module Handler.

(** The fields read off the parsed body; each is a string or absent. *)
Record Fields := mkFields {
  hp : option jsstring;
  name : option jsstring;
  email : option jsstring;
  message : option jsstring;
  company : option jsstring;
  website : option jsstring;
  phone : option jsstring
}.

(** [req.body]: a string on which [JSON.parse] throws, a null or undefined
    body, or an object with the fields above. *)
Inductive ReqBody :=
| Unparsable
| Nullish
| Object (f : Fields).

Record Request := mkRequest {
  method : jsstring;
  body : ReqBody;
  x_forwarded_for : option jsstring;
  remoteAddress : option jsstring
}.

(** [process.env].  [MAIL_PORT] and [MAIL_SECURE] only configure the
    transport, which [relay] below stands for. *)
Record ProcessEnv := mkEnv {
  MAIL_HOST : option jsstring;
  MAIL_PORT : option jsstring;
  MAIL_SECURE : option jsstring;
  MAIL_USER : option jsstring;
  MAIL_PASS : option jsstring;
  MAIL_TO : option jsstring
}.

(** The argument of [transporter.sendMail]. *)
Record Mail := mkMail {
  from : jsstring;
  to : jsstring;
  replyTo : jsstring;
  subject : jsstring;
  text : jsstring
}.

(** What one invocation reads from outside: the clock, the calendar date,
    the random draw, the environment, and the mail relay ([true]: the send
    resolves, [false]: it rejects). *)
Record Ambient := mkAmbient {
  clock : Z;
  today : LocalDate;
  random : list N;
  env : ProcessEnv;
  relay : Mail -> bool
}.

(** What persists or is observable: the rate-limit table and the calls of
    [sendMail], oldest first. *)
Record World := mkWorld {
  ipBucket : Bucket;
  sendCalls : list Mail
}.

Inductive ErrorCode :=
| method_not_allowed
| rate_limited
| missing_fields
| invalid_email
| field_too_long
| message_too_long
| server_not_configured
| send_failed.

Inductive Json :=
| JOk
| JOkTicket (ticket : jsstring)
| JError (error : ErrorCode).

(** [retryAfter] is the number written into the [Retry-After] header. *)
Record Response := mkResponse {
  status : Z;
  retryAfter : option Z;
  json : Json
}.

(** Control flow of the [try] block: go on, respond and [return], or throw. *)
Inductive Flow (A : Type) :=
| Go (a : A)
| Respond (r : Response)
| Raise.
Arguments Go {A} a.
Arguments Respond {A} r.
Arguments Raise {A}.

Definition M (A : Type) : Type := World -> Flow A * World.

#[export] Instance M_ret : MRet M := λ A a w, (Go a, w).

#[export] Instance M_bind : MBind M := λ A B f m w,
  match m w with
  | (Go a, w') => f a w'
  | (Respond r, w') => (Respond r, w')
  | (Raise, w') => (Raise, w')
  end.

Definition respond {A} (st : Z) (j : Json) : M A :=
  λ w, (Respond (mkResponse st None j), w).

Definition raise {A} : M A := λ w, (Raise, w).

(** [if (c) { res.status(st).json(j); return; }] *)
Definition reject (c : bool) (st : Z) (j : Json) : M unit :=
  if c then respond st j else mret tt.

(** [typeof req.body === "string" ? JSON.parse(req.body) : req.body],
    followed by the optional chaining [body?.x]. *)
Definition parseBody (b : ReqBody) : M (option Fields) :=
  match b with
  | Unparsable => raise
  | Nullish => mret None
  | Object f => mret (Some f)
  end.

Definition field (b : option Fields) (get : Fields -> option jsstring)
  : option jsstring := b ≫= get.

(** [body?.hp && String(body.hp).trim() !== ""] *)
Definition honeypot (b : option Fields) : bool :=
  match field b hp with
  | Some s => truthy s && truthy (trim s)
  | None => false
  end.

(** The client key: the first entry of the forwarded-for header, or the
    socket address, or ["unknown"]. *)
Definition clientIp (req : Request) : jsstring :=
  let fwd := match x_forwarded_for req with
             | Some h => trim (before_comma h)
             | None => []
             end in
  if truthy fwd then fwd else default (js "unknown") (remoteAddress req).

(** [Math.ceil(ms / 1000)] *)
Definition ceilSeconds (ms : Z) : Z := - ((- ms) / 1000).

Definition callRateLimit (now : Z) (ip : jsstring) : M RateResult :=
  λ w, let '(r, b) := rateLimit now ip (ipBucket w) in
       (Go r, mkWorld b (sendCalls w)).

(** [await transporter.sendMail(m)]: the call is made, then it resolves or
    rejects as the relay decides. *)
Definition sendMail (rl : Mail -> bool) (m : Mail) : M unit :=
  λ w, let w' := mkWorld (ipBucket w) (sendCalls w ++ [m]) in
       if rl m then (Go tt, w') else (Raise, w').

Definition quote : jsstring := [0x22%N].
Definition newline : jsstring := [0x0A%N].

(** [c ? `label${c}` : ""] *)
Definition labelled (label : string) (v : jsstring) : jsstring :=
  if truthy v then js label ++ v else [].

(** [c ? `label${c}` : `label-`] *)
Definition labelledOrDash (label : string) (v : jsstring) : jsstring :=
  if truthy v then js label ++ v else js label ++ js "-".

Definition adminSubject (safeName safeEmail : jsstring) : jsstring :=
  js "[GEONIX 웹문의] " ++ safeName ++ js " (" ++ safeEmail ++ js ")".

Definition adminLines (ticket name email company phone website message : jsstring)
  : list jsstring :=
  [ js "[접수번호] " ++ ticket;
    [];
    js "Name: " ++ name;
    js "Email: " ++ email;
    labelled "Company: " company;
    labelled "Phone: " phone;
    labelled "Website: " website;
    [];
    js "Message:";
    message ].

Definition adminMail (user to ticket name email company phone website message
                      : jsstring) : Mail :=
  {| from := quote ++ js "Website Contact" ++ quote ++ js " <" ++ user ++ js ">";
     to := to;
     replyTo := email;
     subject := adminSubject (escapeHeaderText name) (escapeHeaderText email);
     text := join newline
                  (filter (λ l, truthy l = true)
                     (adminLines ticket name email company phone website message)) |}.

(** [message.length > 220 ? `${message.slice(0, 220)}...` : message] *)
Definition summary (message : jsstring) : jsstring :=
  if (220 <? length message)%nat then slice0 220 message ++ js "..." else message.

Definition ackLines (ticket name company phone summary : jsstring)
  : list jsstring :=
  [ js "안녕하세요 " ++ name ++ js "님,";
    js "문의가 정상적으로 접수되었습니다.";
    [];
    js "- 접수번호: " ++ ticket;
    labelledOrDash "- Company: " company;
    labelledOrDash "- Phone: " phone;
    js "- 접수내용(요약): " ++ summary;
    [];
    js "담당자가 확인 후 회신드리겠습니다. 감사합니다.";
    [];
    js "------------------------------";
    [];
    js "Hello " ++ name ++ js ",";
    js "We’ve received your inquiry successfully.";
    [];
    js "- Ticket: " ++ ticket;
    labelledOrDash "- Company: " company;
    labelledOrDash "- Phone: " phone;
    js "- Message (summary): " ++ summary;
    [];
    js "Our team will get back to you as soon as possible. Thank you." ].

Definition ackMail (user to ticket name email company phone summary : jsstring)
  : Mail :=
  {| from := quote ++ js "GEONIX" ++ quote ++ js " <" ++ user ++ js ">";
     to := email;
     replyTo := to;
     subject := js "문의가 접수되었습니다 / We’ve received your inquiry (Ticket: "
                  ++ ticket ++ js ")";
     text := join newline
                  (ackLines ticket name company phone summary) |}.

(** The [try] block from the configuration check to the success response
    (source lines 91-172), on the trimmed fields. *)
Definition dispatch (amb : Ambient)
    (name email message company website phone : jsstring) : M Response :=
  let host := MAIL_HOST (env amb) in
  let user := MAIL_USER (env amb) in
  let pass := MAIL_PASS (env amb) in
  let to := MAIL_TO (env amb) in
  reject (missing host || missing user || missing pass || missing to)
         500 (JError server_not_configured);;
  let ticket := makeTicket (js "GEONIX") (today amb) (random amb) in
  sendMail (relay amb)
    (adminMail (orEmpty user) (orEmpty to) ticket name email
               company phone website message);;
  let summary := summary message in
  sendMail (relay amb)
    (ackMail (orEmpty user) (orEmpty to) ticket name email
             company phone summary);;
  mret (mkResponse 200 None (JOkTicket ticket)).

(** The body of the [try] block (source lines 41-89, then [dispatch]). *)
Definition handlerTry (req : Request) (amb : Ambient) : M Response :=
  reject (negb (bool_decide (method req = js "POST")))
         405 (JError method_not_allowed);;
  body ← parseBody (body req);
  reject (honeypot body) 200 JOk;;
  let ip := clientIp req in
  rl ← callRateLimit (clock amb) ip;
  match rl with
  | Denied retryAfterMs =>
    λ w, (Respond (mkResponse 429 (Some (ceilSeconds retryAfterMs))
                              (JError rate_limited)), w)
  | Allowed =>
    let name := trim (orEmpty (field body name)) in
    let email := trim (orEmpty (field body email)) in
    let message := trim (orEmpty (field body message)) in
    let company := trim (orEmpty (field body company)) in
    let website := trim (orEmpty (field body website)) in
    let phone := trim (orEmpty (field body phone)) in
    reject (negb (truthy name) || negb (truthy email) || negb (truthy message))
           400 (JError missing_fields);;
    reject (negb (isValidEmail email)) 400 (JError invalid_email);;
    reject ((80 <? length name)%nat || (120 <? length company)%nat
            || (200 <? length website)%nat || (80 <? length phone)%nat)
           400 (JError field_too_long);;
    reject (5000 <? length message)%nat 400 (JError message_too_long);;
    dispatch amb name email message company website phone
  end.

(** [handler(req, res)]: the [try] block, with the [catch] turning any
    throw into status 500 [send_failed]. *)
Definition handler (req : Request) (amb : Ambient) (w : World)
  : Response * World :=
  match handlerTry req amb w with
  | (Go r, w') => (r, w')
  | (Respond r, w') => (r, w')
  | (Raise, w') => (mkResponse 500 None (JError send_failed), w')
  end.

(** A submission the handler accepts: the checks the handler itself makes
    before it reaches the sends. *)
Record accepted (req : Request) (amb : Ambient) (w : World) (f : Fields) : Prop := {
  acc_method : method req = js "POST";
  acc_body : body req = Object f;
  acc_honeypot : honeypot (Some f) = false;
  acc_rate : (rateLimit (clock amb) (clientIp req) (ipBucket w)).1 = Allowed;
  acc_name : trim (orEmpty (name f)) ≠ [];
  acc_email : isValidEmail (trim (orEmpty (email f))) = true;
  acc_message : trim (orEmpty (message f)) ≠ [];
  acc_name_len : (length (trim (orEmpty (name f))) <= 80)%nat;
  acc_company_len : (length (trim (orEmpty (company f))) <= 120)%nat;
  acc_website_len : (length (trim (orEmpty (website f))) <= 200)%nat;
  acc_phone_len : (length (trim (orEmpty (phone f))) <= 80)%nat;
  acc_message_len : (length (trim (orEmpty (message f))) <= 5000)%nat
}.

(** The two messages the handler builds for the fields [f]. *)
Definition adminMailOf (amb : Ambient) (f : Fields) : Mail :=
  adminMail (orEmpty (MAIL_USER (env amb))) (orEmpty (MAIL_TO (env amb)))
    (makeTicket (js "GEONIX") (today amb) (random amb))
    (trim (orEmpty (name f))) (trim (orEmpty (email f)))
    (trim (orEmpty (company f))) (trim (orEmpty (phone f)))
    (trim (orEmpty (website f))) (trim (orEmpty (message f))).

Definition ackMailOf (amb : Ambient) (f : Fields) : Mail :=
  ackMail (orEmpty (MAIL_USER (env amb))) (orEmpty (MAIL_TO (env amb)))
    (makeTicket (js "GEONIX") (today amb) (random amb))
    (trim (orEmpty (name f))) (trim (orEmpty (email f)))
    (trim (orEmpty (company f))) (trim (orEmpty (phone f)))
    (summary (trim (orEmpty (message f)))).

Definition configured (e : ProcessEnv) : Prop :=
  missing (MAIL_HOST e) = false ∧ missing (MAIL_USER e) = false
  ∧ missing (MAIL_PASS e) = false ∧ missing (MAIL_TO e) = false.

End Handler.
Import Handler.

(** ** Sample inputs, used to run the model *)

Module Sample.

Definition fieldsWith (msg : jsstring) : Fields :=
  {| hp := None;
     name := Some (js "  Kim Minsu ");
     email := Some (js "minsu@example.com");
     message := Some msg;
     company := Some (js "Acme");
     website := None;
     phone := None |}.

Definition request (f : Fields) : Request :=
  {| method := js "POST";
     body := Object f;
     x_forwarded_for := Some (js "203.0.113.7, 10.0.0.1");
     remoteAddress := None |}.

Definition fullEnv : ProcessEnv :=
  {| MAIL_HOST := Some (js "smtp.example.com");
     MAIL_PORT := None;
     MAIL_SECURE := None;
     MAIL_USER := Some (js "noreply@example.com");
     MAIL_PASS := Some (js "secret");
     MAIL_TO := Some (js "admin@example.com") |}.

Definition envWithoutTo : ProcessEnv :=
  {| MAIL_HOST := Some (js "smtp.example.com");
     MAIL_PORT := None;
     MAIL_SECURE := None;
     MAIL_USER := Some (js "noreply@example.com");
     MAIL_PASS := Some (js "secret");
     MAIL_TO := None |}.

(** 10 February 2026, and a draw whose rendering starts [0.7f3kq9]. *)
Definition ambient (e : ProcessEnv) (rl : Mail -> bool) : Ambient :=
  {| clock := 1770681600000;
     today := mkDate 2026 1 10;
     random := [7; 15; 3; 20; 26; 9; 1; 30]%N;
     env := e;
     relay := rl |}.

Definition relayUp : Mail -> bool := λ _, true.
Definition relayDown : Mail -> bool := λ _, false.

Definition emptyWorld : World := {| ipBucket := ∅; sendCalls := [] |}.

Definition letters (n : nat) : jsstring := repeat 0x61%N n.

End Sample.

(** ** Runs of the rate limiter under a clock that does not go back *)

Module Clock.

(** The clock readings of a run never decrease, starting from [T]. *)
Fixpoint monotone_from (T : Z) (evs : list (jsstring * Z)) : Prop :=
  match evs with
  | [] => True
  | (_, t) :: rest => T <= t ∧ monotone_from t rest
  end.

(** No stored window ends later than one window length after [T]. *)
Definition horizon (T : Z) (b : Bucket) : Prop :=
  ∀ k e, b !! k = Some e → resetAt e <= T + RATE_LIMIT_WINDOW_MS.

(** A check at [t0] opens a window: no entry, or an expired one. *)
Definition opens (t0 : Z) (ip : jsstring) (b : Bucket) : Prop :=
  b !! ip = None ∨ ∃ e, b !! ip = Some e ∧ t0 > resetAt e.

End Clock.
Import Clock.

(** ** Requests that get as far as the rate limiter *)

Module Admission.

(** What [body?.x] reads from: the object, if there is one. *)
Definition fieldsOf (b : ReqBody) : option Fields :=
  match b with
  | Object f => Some f
  | _ => None
  end.

Definition parsable (b : ReqBody) : bool :=
  match b with
  | Unparsable => false
  | _ => true
  end.

(** The method is POST, the body parses and the honeypot is empty. *)
Definition reachesLimiter (req : Request) : bool :=
  bool_decide (method req = js "POST") && parsable (body req)
  && negb (honeypot (fieldsOf (body req))).

(** The trimmed field the handler works with. *)
Definition input (req : Request) (get : Fields -> option jsstring) : jsstring :=
  trim (orEmpty (field (fieldsOf (body req)) get)).

(** The world after the rate-limit check of the request. *)
Definition checked (req : Request) (amb : Ambient) (w : World) : World :=
  mkWorld (rateLimit (clock amb) (clientIp req) (ipBucket w)).2 (sendCalls w).

(** The request reaches the limiter and the limiter lets it through. *)
Definition admitted (req : Request) (amb : Ambient) (w : World) : Prop :=
  reachesLimiter req = true
  ∧ (rateLimit (clock amb) (clientIp req) (ipBucket w)).1 = Allowed.

End Admission.
Import Admission.

(** ** The diagnostic endpoint (the SMTP test handler) *)

Module Diagnostic.

(** The value caught by [catch (e)], as far as the handler reads it:
    [e?.message], [String(e)], [e?.code], [e?.response], [e?.command]. *)
Record Thrown := mkThrown {
  e_message : option jsstring;
  e_string : jsstring;
  e_code : option jsstring;
  e_response : option jsstring;
  e_command : option jsstring
}.

(** The argument of the test [sendMail]. *)
Record TestMail := mkTestMail {
  t_from : jsstring;
  t_to : jsstring;
  t_subject : jsstring;
  t_text : jsstring
}.

(** The transport: [verify()] resolves ([None]) or throws; [sendMail]
    resolves with [info.messageId] or throws. *)
Record Transport := mkTransport {
  verify : option Thrown;
  send : TestMail -> Thrown + jsstring
}.

(** The calls made on the transport, oldest first. *)
Inductive Call :=
| CallVerify
| CallSend (m : TestMail).

Inductive DiagJson :=
| DOk (messageId : jsstring)
| DMethodNotAllowed
| DMissingEnv (host port user pass : bool)
| DFailed (error : jsstring) (code response command : option jsstring).

Record DiagResponse := mkDiag { d_status : Z; d_json : DiagJson }.

(** [a || b] on optional strings. *)
Definition orElse (a b : option jsstring) : option jsstring :=
  if missing a then b else a.

(** The [catch] block. *)
Definition failed (e : Thrown) : DiagResponse :=
  mkDiag 500
    (DFailed (if missing (e_message e) then e_string e else orEmpty (e_message e))
             (e_code e) (e_response e) (e_command e)).

Definition testMail (e : ProcessEnv) : TestMail :=
  {| t_from := orEmpty (MAIL_USER e);
     t_to := orEmpty (orElse (MAIL_TO e) (MAIL_USER e));
     t_subject := js "[TEST] SMTP OK";
     t_text := js "SMTP verify + sendMail success" |}.

(** The four variables the diagnostic endpoint insists on are present. *)
Definition ready (e : ProcessEnv) : Prop :=
  missing (MAIL_HOST e) = false ∧ missing (MAIL_PORT e) = false
  ∧ missing (MAIL_USER e) = false ∧ missing (MAIL_PASS e) = false.

(** [handler(req, res)] of the diagnostic endpoint. *)
Definition diagnostic (method : jsstring) (e : ProcessEnv) (tr : Transport)
    (calls : list Call) : DiagResponse * list Call :=
  if negb (bool_decide (method = js "POST"))
  then (mkDiag 405 DMethodNotAllowed, calls)
  else
    let mHost := missing (MAIL_HOST e) in
    let mPort := missing (MAIL_PORT e) in
    let mUser := missing (MAIL_USER e) in
    let mPass := missing (MAIL_PASS e) in
    if mHost || mPort || mUser || mPass
    then (mkDiag 500 (DMissingEnv mHost mPort mUser mPass), calls)
    else
      match verify tr with
      | Some err => (failed err, calls ++ [CallVerify])
      | None =>
        let m := testMail e in
        match send tr m with
        | inl err => (failed err, calls ++ [CallVerify; CallSend m])
        | inr messageId =>
          (mkDiag 200 (DOk messageId), calls ++ [CallVerify; CallSend m])
        end
      end.

End Diagnostic.

(** ** The language preference (LanguageContext.tsx) *)

Module Language.

Inductive Lang := ko | en.

#[export] Instance Lang_eq_dec : EqDecision Lang.
Proof. solve_decision. Defined.

Definition STORAGE_KEY : jsstring := js "geonix_language".

Definition code (l : Lang) : jsstring :=
  match l with ko => js "ko" | en => js "en" end.

(** What the provider touches in the browser: [localStorage] and
    [document.documentElement.lang]. *)
Record Browser := mkBrowser {
  localStorage : gmap (list N) (list N);
  htmlLang : jsstring
}.

(** The initialiser of [useState]; [window] is [None] when there is no
    [window] object. *)
Definition initial (window : option Browser) : Lang :=
  let saved := match window with
               | Some b => localStorage b !! STORAGE_KEY
               | None => None
               end in
  match saved with
  | Some s =>
    if bool_decide (s = js "en") || bool_decide (s = js "ko")
    then (if bool_decide (s = js "en") then en else ko)
    else ko
  | None => ko
  end.

(** [(prev) => (prev === 'ko' ? 'en' : 'ko')] *)
Definition toggleLanguage (prev : Lang) : Lang :=
  match prev with ko => en | en => ko end.

(** The body of the effect. *)
Definition effect (language : Lang) (b : Browser) : Browser :=
  {| localStorage := <[STORAGE_KEY := code language]> (localStorage b);
     htmlLang := match language with ko => js "ko" | en => js "en" end |}.

Inductive Action :=
| SetLanguage (lang : Lang)
| ToggleLanguage.

(** Mounting the provider: the state is initialised and the effect runs. *)
Definition mount (b : Browser) : Lang * Browser :=
  let language := initial (Some b) in
  (language, effect language b).

(** One state update; the effect runs again only when [language] changed. *)
Definition update (a : Action) (st : Lang * Browser) : Lang * Browser :=
  let language := match a with
                  | SetLanguage l => l
                  | ToggleLanguage => toggleLanguage st.1
                  end in
  if bool_decide (language = st.1) then st
  else (language, effect language st.2).

Definition updates (acts : list Action) (st : Lang * Browser) : Lang * Browser :=
  foldl (λ s a, update a s) st acts.

(** The browser shows and stores the language of the state, and differs
    from [b0] at most under [STORAGE_KEY] and in the [lang] attribute. *)
Definition reflects (b0 : Browser) (st : Lang * Browser) : Prop :=
  htmlLang st.2 = code st.1
  ∧ localStorage st.2 !! STORAGE_KEY = Some (code st.1)
  ∧ ∀ k, k ≠ STORAGE_KEY → localStorage st.2 !! k = localStorage b0 !! k.

End Language.

(** * Properties *)

(** ** Rate limiter *)

Section RateLimiterFacts.

Implicit Types (ip k : list N) (b : gmap (list N) Entry) (now : Z).

Lemma rateLimit_absent now ip b :
  b !! ip = None →
  rateLimit now ip b = (Allowed, <[ip := mkEntry 1 (now + 60000)]> b).
Proof. intros H. unfold rateLimit. by rewrite H. Qed.

Lemma rateLimit_expired now ip b e :
  b !! ip = Some e → now > resetAt e →
  rateLimit now ip b = (Allowed, <[ip := mkEntry 1 (now + 60000)]> b).
Proof.
  intros H Hgt. unfold rateLimit. rewrite H.
  destruct (Z.gtb_spec now (resetAt e)) as [_|Hle]; [done | lia].
Qed.

Lemma rateLimit_full now ip b e :
  b !! ip = Some e → ¬ now > resetAt e → count e >= 3 →
  rateLimit now ip b = (Denied (resetAt e - now), b).
Proof.
  intros H Hle Hc. unfold rateLimit, RATE_LIMIT_MAX. rewrite H.
  destruct (Z.gtb_spec now (resetAt e)) as [Hgt|_]; [lia |].
  rewrite Z.geb_leb. destruct (Z.leb_spec 3 (count e)); [done | lia].
Qed.

Lemma rateLimit_room now ip b e :
  b !! ip = Some e → ¬ now > resetAt e → ¬ count e >= 3 →
  rateLimit now ip b = (Allowed, <[ip := mkEntry (count e + 1) (resetAt e)]> b).
Proof.
  intros H Hle Hc. unfold rateLimit, RATE_LIMIT_MAX. rewrite H.
  destruct (Z.gtb_spec now (resetAt e)) as [Hgt|_]; [lia |].
  rewrite Z.geb_leb. destruct (Z.leb_spec 3 (count e)); [lia | done].
Qed.

(** The case analysis every proof about [rateLimit] starts from. *)
Lemma rateLimit_cases now ip b :
  fixed_window now ip b (rateLimit now ip b).1 (rateLimit now ip b).2.
Proof.
  destruct (b !! ip) as [e|] eqn:H.
  - destruct (Z_gt_dec now (resetAt e)) as [Hgt|Hle].
    + rewrite (rateLimit_expired _ _ _ _ H Hgt). constructor. eauto.
    + destruct (Z_ge_dec (count e) 3) as [Hc|Hc].
      * rewrite (rateLimit_full _ _ _ _ H Hle Hc). by econstructor.
      * rewrite (rateLimit_room _ _ _ _ H Hle Hc). by econstructor.
  - rewrite (rateLimit_absent _ _ _ H). constructor. eauto.
Qed.

(** A check of one key leaves the entries of all other keys alone. *)
Lemma rateLimit_other now ip k b :
  k ≠ ip → (rateLimit now k b).2 !! ip = b !! ip.
Proof.
  intros Hne. destruct (rateLimit_cases now k b); simpl;
    by rewrite ?lookup_insert_ne.
Qed.

End RateLimiterFacts.

(** C1. For every key and every clock reading, [rateLimit] is the
    fixed-window counter of the specification: it opens a window (count 1,
    reset time now + 60000) and allows when there is no entry or the stored
    window has expired; otherwise it denies with retryAfterMs =
    windowResetAt - now when the count has reached 3; otherwise it adds one
    to the count and allows.  The code yields a result and a table exactly
    when the specification's counter does. *)
Theorem rateLimit_fixed_window (ip : list N) (now : Z) (b : gmap (list N) Entry)
    (r : RateResult) (b' : gmap (list N) Entry) :
  rateLimit now ip b = (r, b') ↔ fixed_window now ip b r b'.
Proof.
  split.
  - intros H. pose proof (rateLimit_cases now ip b) as Hc.
    by rewrite H in Hc.
  - intros H. destruct H as [[Hn|(e & He & Hgt)] | e He Hle Hc | e He Hle Hc].
    + by apply rateLimit_absent.
    + by eapply rateLimit_expired.
    + by apply rateLimit_full.
    + by apply rateLimit_room.
Qed.

Lemma rateLimit_fixed_window_witness :
  fixed_window 1000 (js "203.0.113.7") ∅ Allowed
    (<[js "203.0.113.7" := mkEntry 1 61000]> ∅)
  ∧ fixed_window 2000 (js "203.0.113.7")
      (<[js "203.0.113.7" := mkEntry 3 61000]> ∅) (Denied 59000)
      (<[js "203.0.113.7" := mkEntry 3 61000]> ∅).
Proof.
  split.
  - apply (rateLimit_fixed_window (js "203.0.113.7") 1000 ∅). reflexivity.
  - apply (rateLimit_fixed_window (js "203.0.113.7") 2000). reflexivity.
Defined.

(** C9. A denied check leaves the table as it was: the entry of the key
    is still there with the same count and the same reset time, so a denied
    request neither uses up quota nor prolongs the window. *)
Theorem denied_leaves_entry (ip : list N) (now ms : Z) (b : gmap (list N) Entry) :
  (rateLimit now ip b).1 = Denied ms →
  (rateLimit now ip b).2 = b
  ∧ ∃ e, b !! ip = Some e ∧ (rateLimit now ip b).2 !! ip = Some e
         ∧ ms = resetAt e - now.
Proof.
  intros H. destruct (rateLimit_cases now ip b) as [ | e He _ _ | ];
    simpl in *; try discriminate.
  split; [done |]. exists e. repeat split; [done.. |]. congruence.
Qed.

Lemma denied_leaves_entry_witness :
  let b : gmap (list N) Entry := <[js "203.0.113.7" := mkEntry 3 61000]> ∅ in
  (rateLimit 2000 (js "203.0.113.7") b).2 = b
  ∧ ∃ e, b !! js "203.0.113.7" = Some e
         ∧ (rateLimit 2000 (js "203.0.113.7") b).2 !! js "203.0.113.7" = Some e
         ∧ 59000 = resetAt e - 2000.
Proof.
  intros b. apply (denied_leaves_entry (js "203.0.113.7") 2000 59000 b).
  reflexivity.
Defined.

Section Invariant.

Implicit Types (ip k : list N) (b : gmap (list N) Entry) (now : Z).

Lemma counts_bounded_empty : counts_bounded (∅ : gmap (list N) Entry).
Proof. intros k e H. by rewrite lookup_empty in H. Qed.

Lemma counts_bounded_insert ip e b :
  1 <= count e <= 3 → counts_bounded b → counts_bounded (<[ip := e]> b).
Proof.
  intros He Hb k e' H. destruct (decide (ip = k)) as [->|Hne].
  - rewrite lookup_insert_eq in H. by inversion H; subst.
  - rewrite lookup_insert_ne in H by done. eauto.
Qed.

Lemma rateLimit_counts_bounded now ip b :
  counts_bounded b → counts_bounded (rateLimit now ip b).2.
Proof.
  intros Hb. destruct (rateLimit_cases now ip b) as [ | | e He _ Hc]; simpl.
  - apply counts_bounded_insert; [simpl; lia | done].
  - done.
  - apply counts_bounded_insert; [|done]. simpl. specialize (Hb _ _ He). lia.
Qed.

Lemma run_counts_bounded evs b :
  counts_bounded b → counts_bounded (run evs b).2.
Proof.
  revert b. induction evs as [|[k now] rest IH]; intros b Hb; [done |].
  simpl. pose proof (rateLimit_counts_bounded now k b Hb) as H1.
  destruct (rateLimit now k b) as [r b1]. simpl in H1.
  specialize (IH b1 H1). by destruct (run rest b1) as [rs b2].
Qed.

End Invariant.

(** C10. After any sequence of checks that starts from the empty table,
    every stored entry has 1 <= count <= 3, and each single check keeps
    that bound for all keys. *)
Theorem count_invariant :
  (∀ evs : list (list N * Z), counts_bounded (run evs ∅).2)
  ∧ (∀ (now : Z) (ip : list N) (b : gmap (list N) Entry),
       counts_bounded b → counts_bounded (rateLimit now ip b).2).
Proof.
  split.
  - intros evs. apply run_counts_bounded, counts_bounded_empty.
  - intros now ip b. apply rateLimit_counts_bounded.
Qed.

Lemma count_invariant_witness :
  counts_bounded
    (run [(js "a", 0); (js "a", 1); (js "b", 2); (js "a", 3); (js "a", 4);
          (js "a", 70000)] ∅).2
  ∧ counts_bounded
      (rateLimit 5 (js "a") (<[js "a" := mkEntry 2 60000]> ∅)).2.
Proof.
  split.
  - apply (proj1 count_invariant).
  - apply (proj2 count_invariant). intros k e H.
    destruct (decide (js "a" = k)) as [<-|Hne].
    + rewrite lookup_insert_eq in H. inversion H; subst. simpl. lia.
    + rewrite lookup_insert_ne, lookup_empty in H by done. discriminate.
Defined.

Section FourChecks.

Implicit Types (ip k : list N) (b : gmap (list N) Entry) (now : Z).

(** The outcome of a check and the entry it leaves depend on the entry of
    the checked key only. *)
Lemma rateLimit_local now ip b b' :
  b !! ip = b' !! ip →
  (rateLimit now ip b).1 = (rateLimit now ip b').1
  ∧ (rateLimit now ip b).2 !! ip = (rateLimit now ip b').2 !! ip.
Proof.
  intros H. unfold rateLimit. rewrite H.
  destruct (b' !! ip) as [e|] eqn:He; simpl.
  - destruct (now >? resetAt e); simpl; [by rewrite !lookup_insert_eq |].
    destruct (count e >=? RATE_LIMIT_MAX); simpl;
      [split; congruence | by rewrite !lookup_insert_eq].
  - by rewrite !lookup_insert_eq.
Qed.

(** What a client sees is decided by its own checks and its own entry. *)
Lemma outcomes_local ip evs :
  ∀ b b', b !! ip = b' !! ip →
    outcomes ip evs b = outcomes ip (map (λ t, (ip, t)) (times ip evs)) b'.
Proof.
  induction evs as [|[k now] rest IH]; intros b b' H; [done |].
  simpl. destruct (decide (k = ip)) as [->|Hne].
  - simpl. destruct (rateLimit_local now ip b b' H) as [Hr Hb].
    destruct (rateLimit now ip b) as [r b1], (rateLimit now ip b') as [r' b1'].
    simpl in *. rewrite decide_True by done. subst r'. f_equal. by apply IH.
  - pose proof (rateLimit_other now ip k b Hne) as Ho.
    destruct (rateLimit now k b) as [r b1]. simpl in Ho.
    apply IH. congruence.
Qed.

Lemma four_checks ip b t0 t1 t2 t3 :
  b !! ip = None → in_window t0 t1 → in_window t0 t2 → in_window t0 t3 →
  outcomes ip [(ip, t0); (ip, t1); (ip, t2); (ip, t3)] b
  = [Allowed; Allowed; Allowed; Denied (t0 + 60000 - t3)].
Proof.
  unfold in_window, RATE_LIMIT_WINDOW_MS. intros Hb [? ?] [? ?] [? ?]. simpl.
  rewrite (rateLimit_absent t0 ip b Hb), decide_True by done.
  erewrite (rateLimit_room t1 ip); [| apply lookup_insert_eq | simpl; lia..].
  rewrite decide_True by done. simpl.
  erewrite (rateLimit_room t2 ip); [| apply lookup_insert_eq | simpl; lia..].
  rewrite decide_True by done. simpl.
  erewrite (rateLimit_full t3 ip); [| apply lookup_insert_eq | simpl; lia..].
  rewrite decide_True by done. done.
Qed.

End FourChecks.

(** C2, as the code has it.  When the first four checks of a key (checks
    of other keys may come in between) all fall in the window opened by
    the first, the first three are allowed and the fourth is denied with
    retryAfterMs = windowResetAt - now, which lies between 0 and 60000; it
    is strictly positive exactly when the fourth check comes strictly
    before windowResetAt. *)
Theorem three_allowed_fourth_denied (ip : list N) (evs : list (list N * Z))
    (b : gmap (list N) Entry) (t0 t1 t2 t3 : Z) :
  b !! ip = None →
  times ip evs = [t0; t1; t2; t3] →
  in_window t0 t1 → in_window t0 t2 → in_window t0 t3 →
  outcomes ip evs b = [Allowed; Allowed; Allowed; Denied (t0 + 60000 - t3)]
  ∧ 0 <= t0 + 60000 - t3 <= 60000
  ∧ (0 < t0 + 60000 - t3 ↔ t3 < t0 + 60000).
Proof.
  intros Hb Ht H1 H2 H3. split.
  - rewrite (outcomes_local ip evs b b eq_refl), Ht. by apply four_checks.
  - destruct H3 as [? ?]. unfold RATE_LIMIT_WINDOW_MS in *. lia.
Qed.

Lemma three_allowed_fourth_denied_witness :
  outcomes (js "a")
    [(js "a", 100); (js "b", 150); (js "a", 200); (js "a", 300); (js "b", 350);
     (js "a", 59000)] ∅
  = [Allowed; Allowed; Allowed; Denied (100 + 60000 - 59000)]
  ∧ 0 <= 100 + 60000 - 59000 <= 60000
  ∧ (0 < 100 + 60000 - 59000 ↔ 59000 < 100 + 60000).
Proof.
  apply (three_allowed_fourth_denied (js "a")
           [(js "a", 100); (js "b", 150); (js "a", 200); (js "a", 300);
            (js "b", 350); (js "a", 59000)] ∅ 100 200 300 59000);
    [reflexivity | reflexivity | | | ];
    unfold in_window, RATE_LIMIT_WINDOW_MS; lia.
Defined.

(** C2 as the specification states it fails at the end of the window: a
    fourth check at exactly windowResetAt is still inside the window (the
    window expires only when now > windowResetAt) and is denied with
    retryAfterMs = 0, which is not strictly positive. *)
Lemma fourth_check_retry_can_be_zero :
  ¬ (∀ (ip : list N) (evs : list (list N * Z)) (b : gmap (list N) Entry)
       (t0 t1 t2 t3 : Z),
       b !! ip = None →
       times ip evs = [t0; t1; t2; t3] →
       in_window t0 t1 → in_window t0 t2 → in_window t0 t3 →
       ∃ ms, outcomes ip evs b = [Allowed; Allowed; Allowed; Denied ms]
             ∧ 0 < ms <= 60000).
Proof.
  intros H.
  destruct (H (js "203.0.113.7")
              [(js "203.0.113.7", 0); (js "203.0.113.7", 1);
               (js "203.0.113.7", 2); (js "203.0.113.7", 60000)]
              ∅ 0 1 2 60000) as (ms & Hout & Hpos);
    [reflexivity | reflexivity | | | |];
    try (unfold in_window, RATE_LIMIT_WINDOW_MS; lia).
  vm_compute in Hout. inversion Hout. lia.
Qed.

(** ** The handler *)

Section HandlerFacts.

Implicit Types (req : Request) (amb : Ambient) (w : World) (f : Fields).

Lemma reject_false_bind {A} st j (k : M A) w : (reject false st j ;; k) w = k w.
Proof. reflexivity. Qed.

Lemma reject_true_bind {A} st j (k : M A) w :
  (reject true st j ;; k) w = (Respond (mkResponse st None j), w).
Proof. reflexivity. Qed.

Lemma callRateLimit_bind {A} now ip (k : RateResult → M A) w :
  (callRateLimit now ip ≫= k) w
  = k (rateLimit now ip (ipBucket w)).1
      (mkWorld (rateLimit now ip (ipBucket w)).2 (sendCalls w)).
Proof.
  unfold mbind, M_bind, callRateLimit.
  by destruct (rateLimit now ip (ipBucket w)).
Qed.

Lemma sendMail_bind {A} rl m (k : M A) w :
  (sendMail rl m ;; k) w
  = if rl m then k (mkWorld (ipBucket w) (sendCalls w ++ [m]))
    else (Raise, mkWorld (ipBucket w) (sendCalls w ++ [m])).
Proof. unfold mbind, M_bind, sendMail. by destruct (rl m). Qed.

Lemma truthy_true (s : list N) : s ≠ [] → truthy s = true.
Proof. by destruct s. Qed.

Lemma isValidEmail_nonempty (s : list N) : isValidEmail s = true → s ≠ [].
Proof. by intros H ->. Qed.

(** An accepted submission passes every check up to the configuration
    check, with the rate-limit table updated and nothing sent yet. *)
Lemma front_accepted req amb w f :
  accepted req amb w f →
  handlerTry req amb w
  = dispatch amb (trim (orEmpty (name f))) (trim (orEmpty (email f)))
      (trim (orEmpty (message f))) (trim (orEmpty (company f)))
      (trim (orEmpty (website f))) (trim (orEmpty (phone f)))
      (mkWorld (rateLimit (clock amb) (clientIp req) (ipBucket w)).2 (sendCalls w)).
Proof.
  intros [Hm Hb Hhp Hr Hn He Hmsg Hnl Hcl Hwl Hpl Hml].
  unfold handlerTry. rewrite Hm, Hb.
  rewrite bool_decide_eq_true_2 by done.
  change (negb true) with false. rewrite reject_false_bind.
  change (parseBody (Object f) ≫= ?k) with (k (Some f)). cbv beta.
  rewrite Hhp, reject_false_bind.
  change (field (Some f) ?g) with (g f).
  rewrite callRateLimit_bind, Hr. cbv beta iota.
  rewrite (truthy_true _ Hn), (truthy_true _ Hmsg),
    (truthy_true _ (isValidEmail_nonempty _ He)), He.
  change (negb true) with false. change (false || false || false) with false.
  rewrite !reject_false_bind.
  rewrite (proj2 (Nat.ltb_ge _ _) Hnl), (proj2 (Nat.ltb_ge _ _) Hcl),
    (proj2 (Nat.ltb_ge _ _) Hwl), (proj2 (Nat.ltb_ge _ _) Hpl),
    (proj2 (Nat.ltb_ge _ _) Hml).
  change (false || false || false || false) with false.
  by rewrite !reject_false_bind.
Qed.

Lemma dispatch_unconfigured amb n e m c ws p w :
  missing (MAIL_HOST (env amb)) || missing (MAIL_USER (env amb))
  || missing (MAIL_PASS (env amb)) || missing (MAIL_TO (env amb)) = true →
  dispatch amb n e m c ws p w
  = (Respond (mkResponse 500 None (JError server_not_configured)), w).
Proof. intros H. unfold dispatch. by rewrite H, reject_true_bind. Qed.

Lemma configured_not_missing e :
  configured e →
  missing (MAIL_HOST e) || missing (MAIL_USER e)
  || missing (MAIL_PASS e) || missing (MAIL_TO e) = false.
Proof. by intros (-> & -> & -> & ->). Qed.

(** With the configuration present, the sends run in order, and the first
    rejection ends the [try] block. *)
Lemma dispatch_configured amb n e m c ws p w :
  configured (env amb) →
  let ticket := makeTicket (js "GEONIX") (today amb) (random amb) in
  let user := orEmpty (MAIL_USER (env amb)) in
  let to := orEmpty (MAIL_TO (env amb)) in
  let admin := adminMail user to ticket n e c p ws m in
  let ack := ackMail user to ticket n e c p (summary m) in
  dispatch amb n e m c ws p w
  = if relay amb admin then
      if relay amb ack then
        (Go (mkResponse 200 None (JOkTicket ticket)),
         mkWorld (ipBucket w) (sendCalls w ++ [admin; ack]))
      else (Raise, mkWorld (ipBucket w) (sendCalls w ++ [admin; ack]))
    else (Raise, mkWorld (ipBucket w) (sendCalls w ++ [admin])).
Proof.
  intros Hc. cbv zeta. unfold dispatch.
  rewrite (configured_not_missing _ Hc), reject_false_bind, sendMail_bind.
  destruct (relay amb (adminMail _ _ _ _ _ _ _ _ _)); [|done].
  rewrite sendMail_bind. simpl. rewrite <- app_assoc. simpl.
  by destruct (relay amb (ackMail _ _ _ _ _ _ _ _)).
Qed.

Lemma trim_nil : trim [] = [].
Proof. reflexivity. Qed.

End HandlerFacts.

(** Discharges [accepted] on closed sample inputs by evaluation. *)
Ltac accept_by_evaluation :=
  split;
  [ reflexivity | reflexivity | reflexivity | reflexivity
  | vm_compute; discriminate | vm_compute; reflexivity
  | vm_compute; discriminate
  | vm_compute; lia | vm_compute; lia | vm_compute; lia | vm_compute; lia
  | vm_compute; lia ].

(** C4. A POST request whose honeypot field is non-empty after trimming
    is answered with status 200 and body {ok:true}, whatever the other
    fields hold; no mail is sent (the list of send calls does not grow) and
    nothing else changes either. *)
Theorem honeypot_silent_accept (req : Request) (amb : Ambient) (w : World)
    (f : Fields) (h : list N) :
  method req = js "POST" → body req = Object f →
  hp f = Some h → trim h ≠ [] →
  handler req amb w = (mkResponse 200 None JOk, w)
  ∧ sendCalls (handler req amb w).2 = sendCalls w.
Proof.
  intros Hm Hb Hh Ht.
  assert (handler req amb w = (mkResponse 200 None JOk, w)) as E.
  { unfold handler, handlerTry. rewrite Hm, Hb.
    rewrite bool_decide_eq_true_2 by done.
    change (negb true) with false. rewrite reject_false_bind.
    change (parseBody (Object f) ≫= ?k) with (k (Some f)). cbv beta.
    assert (honeypot (Some f) = true) as ->.
    { unfold honeypot. change (field (Some f) hp) with (hp f). rewrite Hh.
      rewrite (truthy_true _ Ht). destruct h; [by rewrite trim_nil in Ht | done]. }
    by rewrite reject_true_bind. }
  by rewrite E.
Qed.

Lemma honeypot_silent_accept_witness :
  let f := mkFields (Some (js " bot ")) None (Some (js "x")) None None None None in
  let req := Sample.request f in
  let amb := Sample.ambient Sample.fullEnv Sample.relayUp in
  handler req amb Sample.emptyWorld = (mkResponse 200 None JOk, Sample.emptyWorld)
  ∧ sendCalls (handler req amb Sample.emptyWorld).2 = sendCalls Sample.emptyWorld.
Proof.
  intros f req amb.
  apply (honeypot_silent_accept req amb Sample.emptyWorld f (js " bot "));
    [reflexivity | reflexivity | reflexivity | vm_compute; discriminate].
Defined.

(** C8. For a submission that passes the honeypot, the rate limiter and
    field validation, the absence of any of MAIL_HOST, MAIL_USER, MAIL_PASS
    or MAIL_TO gives status 500 with error server_not_configured, and no
    send is attempted. *)
Theorem missing_config_no_send (req : Request) (amb : Ambient) (w : World)
    (f : Fields) :
  accepted req amb w f →
  MAIL_HOST (env amb) = None ∨ MAIL_USER (env amb) = None
  ∨ MAIL_PASS (env amb) = None ∨ MAIL_TO (env amb) = None →
  (handler req amb w).1 = mkResponse 500 None (JError server_not_configured)
  ∧ sendCalls (handler req amb w).2 = sendCalls w.
Proof.
  intros Hacc Hmiss. unfold handler.
  rewrite (front_accepted _ _ _ _ Hacc), dispatch_unconfigured; [done |].
  destruct Hmiss as [-> | [-> | [-> | ->]]]; simpl;
    rewrite ?orb_true_r; reflexivity.
Qed.

Lemma missing_config_no_send_witness :
  let f := Sample.fieldsWith (js "Please call me back.") in
  let req := Sample.request f in
  let amb := Sample.ambient Sample.envWithoutTo Sample.relayUp in
  (handler req amb Sample.emptyWorld).1
  = mkResponse 500 None (JError server_not_configured)
  ∧ sendCalls (handler req amb Sample.emptyWorld).2 = sendCalls Sample.emptyWorld.
Proof.
  intros f req amb.
  apply (missing_config_no_send req amb Sample.emptyWorld f).
  - accept_by_evaluation.
  - right. right. right. reflexivity.
Defined.

(** C5. When the relay rejects the first send (the admin notice) of an
    accepted submission, the response is status 500 with error send_failed,
    and the only send call made is that first one: the acknowledgement is
    never attempted. *)
Theorem admin_send_failure (req : Request) (amb : Ambient) (w : World)
    (f : Fields) :
  accepted req amb w f → configured (env amb) →
  relay amb (adminMailOf amb f) = false →
  (handler req amb w).1 = mkResponse 500 None (JError send_failed)
  ∧ sendCalls (handler req amb w).2 = sendCalls w ++ [adminMailOf amb f].
Proof.
  intros Hacc Hc Hfail. unfold handler.
  rewrite (front_accepted _ _ _ _ Hacc), (dispatch_configured _ _ _ _ _ _ _ _ Hc).
  fold (adminMailOf amb f). by rewrite Hfail.
Qed.

Lemma admin_send_failure_witness :
  let f := Sample.fieldsWith (js "Please call me back.") in
  let req := Sample.request f in
  let amb := Sample.ambient Sample.fullEnv Sample.relayDown in
  (handler req amb Sample.emptyWorld).1
  = mkResponse 500 None (JError send_failed)
  ∧ sendCalls (handler req amb Sample.emptyWorld).2
    = sendCalls Sample.emptyWorld ++ [adminMailOf amb f].
Proof.
  intros f req amb.
  apply (admin_send_failure req amb Sample.emptyWorld f).
  - accept_by_evaluation.
  - repeat split.
  - reflexivity.
Defined.

(** C7. For an accepted submission the handler calls the relay with the
    admin notice and then with an acknowledgement whose body carries the
    summary on its Korean and its English summary line.  The summary is the
    first 220 characters of the trimmed message followed by "..." when the
    trimmed message is longer than 220 characters, and the trimmed message
    itself when its length is at most 220. *)
Theorem ack_summary (req : Request) (amb : Ambient) (w : World) (f : Fields) :
  accepted req amb w f → configured (env amb) →
  relay amb (adminMailOf amb f) = true →
  ∃ (ack : Mail) (lines : list (list N)) (S : list N),
    sendCalls (handler req amb w).2 = sendCalls w ++ [adminMailOf amb f; ack]
    ∧ to ack = trim (orEmpty (email f))
    ∧ text ack = join newline lines
    ∧ lines !! 6%nat = Some (js "- 접수내용(요약): " ++ S)
    ∧ lines !! 18%nat = Some (js "- Message (summary): " ++ S)
    ∧ ((220 < length (trim (orEmpty (message f))))%nat →
       S = take 220 (trim (orEmpty (message f))) ++ js "...")
    ∧ ((length (trim (orEmpty (message f))) <= 220)%nat →
       S = trim (orEmpty (message f))).
Proof.
  intros Hacc Hc Hok.
  exists (ackMailOf amb f).
  exists (ackLines (makeTicket (js "GEONIX") (today amb) (random amb))
            (trim (orEmpty (name f))) (trim (orEmpty (company f)))
            (trim (orEmpty (phone f))) (summary (trim (orEmpty (message f))))).
  exists (summary (trim (orEmpty (message f)))).
  split; [| repeat split].
  - unfold handler.
    rewrite (front_accepted _ _ _ _ Hacc), (dispatch_configured _ _ _ _ _ _ _ _ Hc).
    fold (adminMailOf amb f). fold (ackMailOf amb f). rewrite Hok.
    by destruct (relay amb (ackMailOf amb f)).
  - intros Hlong. unfold summary, slice0.
    by rewrite (proj2 (Nat.ltb_lt _ _) Hlong).
  - intros Hshort. unfold summary.
    by rewrite (proj2 (Nat.ltb_ge _ _) Hshort).
Qed.

Lemma ack_summary_witness :
  let f := Sample.fieldsWith (Sample.letters 300) in
  let req := Sample.request f in
  let amb := Sample.ambient Sample.fullEnv Sample.relayUp in
  ∃ (ack : Mail) (lines : list (list N)) (S : list N),
    sendCalls (handler req amb Sample.emptyWorld).2
    = sendCalls Sample.emptyWorld ++ [adminMailOf amb f; ack]
    ∧ to ack = trim (orEmpty (email f))
    ∧ text ack = join newline lines
    ∧ lines !! 6%nat = Some (js "- 접수내용(요약): " ++ S)
    ∧ lines !! 18%nat = Some (js "- Message (summary): " ++ S)
    ∧ ((220 < length (trim (orEmpty (message f))))%nat →
       S = take 220 (trim (orEmpty (message f))) ++ js "...")
    ∧ ((length (trim (orEmpty (message f))) <= 220)%nat →
       S = trim (orEmpty (message f))).
Proof.
  intros f req amb.
  apply (ack_summary req amb Sample.emptyWorld f).
  - accept_by_evaluation.
  - repeat split.
  - reflexivity.
Defined.

Example summary_of_300 :
  summary (Sample.letters 300) = Sample.letters 220 ++ js "...".
Proof. reflexivity. Qed.

Example summary_of_100 : summary (Sample.letters 100) = Sample.letters 100.
Proof. reflexivity. Qed.

Example summary_of_220 : summary (Sample.letters 220) = Sample.letters 220.
Proof. reflexivity. Qed.

Example accepted_run :
  let f := Sample.fieldsWith (js "Please call me back.") in
  let amb := Sample.ambient Sample.fullEnv Sample.relayUp in
  (handler (Sample.request f) amb Sample.emptyWorld).1
  = mkResponse 200 None (JOkTicket (js "GEONIX-20260210-7F3KQ9"))
  ∧ sendCalls (handler (Sample.request f) amb Sample.emptyWorld).2
    = [adminMailOf amb f; ackMailOf amb f].
Proof. split; reflexivity. Qed.

(** ** Header sanitising *)

Section Sanitise.

Implicit Types (s t u : list N) (c : N).

Lemma noCRLF_Forall s : noCRLF s ↔ Forall (λ c, isCRLF c = false) s.
Proof. unfold noCRLF. by rewrite list.Forall_forall. Qed.

Lemma replaceCRLF_noCRLF fl s : noCRLF (replaceCRLF fl s).
Proof.
  apply noCRLF_Forall. revert fl.
  induction s as [|c r IH]; intros fl; simpl; [constructor |].
  destruct (isCRLF c) eqn:E.
  - destruct fl; [apply IH | constructor; [done | apply IH]].
  - constructor; [done | apply IH].
Qed.

Lemma trimStart_Forall (P : N → Prop) s : Forall P s → Forall P (trimStart s).
Proof.
  induction 1 as [|c r Hc Hr IH]; simpl; [constructor |].
  destruct (isWhiteSpace c); [done | by constructor].
Qed.

Lemma trim_Forall (P : N → Prop) s : Forall P s → Forall P (trim s).
Proof.
  intros H. unfold trim, trimEnd.
  apply Forall_rev, trimStart_Forall, Forall_rev, trimStart_Forall, H.
Qed.

Lemma escapeHeaderText_noCRLF s : noCRLF (escapeHeaderText s).
Proof.
  apply noCRLF_Forall, trim_Forall, noCRLF_Forall, replaceCRLF_noCRLF.
Qed.

(** The scan computes the collapse, also when it starts inside a run. *)
Lemma replaceCRLF_collapsed s :
  collapsed s (replaceCRLF false s)
  ∧ ∀ run, run ≠ [] → forallb isCRLF run = true →
      collapsed (run ++ s) (0x20%N :: replaceCRLF true s).
Proof.
  induction s as [|c r [IH1 IH2]].
  - split; [constructor |]. intros run Hne Hrun. simpl.
    apply collapsed_run; [done.. | discriminate | constructor].
  - simpl. destruct (isCRLF c) eqn:E.
    + split.
      * apply (IH2 [c]); [done | simpl; by rewrite E].
      * intros run Hne Hrun.
        replace (run ++ c :: r) with ((run ++ [c]) ++ r) by by rewrite <- app_assoc.
        apply IH2; [by destruct run |].
        rewrite forallb_app, Hrun. simpl. by rewrite E.
    + split; [by constructor |]. intros run Hne Hrun.
      apply collapsed_run; [done.. | | by constructor].
      intros c' s' [= <- <-]. done.
Qed.

Lemma replaceCRLF_after_run run s :
  forallb isCRLF run = true →
  (∀ c s', s = c :: s' → isCRLF c = false) →
  replaceCRLF true (run ++ s) = replaceCRLF false s.
Proof.
  intros Hrun Hmax. induction run as [|c r IH]; simpl in *.
  - destruct s as [|c s']; [done |]. simpl. by rewrite (Hmax c s' eq_refl).
  - apply andb_prop in Hrun as [-> Hr]. by apply IH.
Qed.

(** The collapse of a string is unique: it is what the scan computes. *)
Lemma collapsed_unique s t : collapsed s t → t = replaceCRLF false s.
Proof.
  induction 1 as [| c s t Hc _ IH | run s t Hne Hrun Hmax _ IH].
  - done.
  - simpl. by rewrite Hc, IH.
  - destruct run as [|c r]; [done |]. simpl in *.
    apply andb_prop in Hrun as [-> Hr].
    by rewrite (replaceCRLF_after_run r s Hr Hmax), IH.
Qed.

Lemma trimStart_length s : (length (trimStart s) <= length s)%nat.
Proof.
  induction s as [|c r IH]; simpl; [lia |].
  destruct (isWhiteSpace c); simpl; lia.
Qed.

Lemma trimStart_fixed s :
  trimStart s = s ↔ s = [] ∨ ∃ c r, s = c :: r ∧ isWhiteSpace c = false.
Proof.
  split.
  - destruct s as [|c r]; [by left |]. simpl. intros H. right. exists c, r.
    destruct (isWhiteSpace c); [| done].
    pose proof (trimStart_length r) as Hl. rewrite H in Hl. simpl in Hl. lia.
  - intros [-> | (c & r & -> & Hc)]; [done |]. simpl. by rewrite Hc.
Qed.

Lemma trimEnd_fixed s :
  trimEnd s = s ↔ s = [] ∨ ∃ c r, s = r ++ [c] ∧ isWhiteSpace c = false.
Proof.
  unfold trimEnd. split.
  - intros H. assert (trimStart (rev s) = rev s) as H'.
    { by rewrite <- H at 2; rewrite rev_involutive. }
    apply trimStart_fixed in H' as [H' | (c & r & H' & Hc)].
    + left. by rewrite <- (rev_involutive s), H'.
    + right. exists c, (rev r). split; [| done].
      by rewrite <- (rev_involutive s), H'.
  - intros [-> | (c & r & -> & Hc)]; [done |].
    rewrite rev_app_distr. simpl. rewrite Hc. simpl. by rewrite rev_involutive.
Qed.

Lemma trimStart_idem s : trimStart (trimStart s) = trimStart s.
Proof.
  induction s as [|c r IH]; [done |]. simpl.
  destruct (isWhiteSpace c) eqn:E; [done |]. simpl. by rewrite E.
Qed.

Lemma trimStart_snoc l c :
  isWhiteSpace c = false → ∃ l', trimStart (l ++ [c]) = l' ++ [c].
Proof.
  intros Hc. induction l as [|d l IH]; simpl.
  - rewrite Hc. by exists [].
  - destruct (isWhiteSpace d); [done |]. by exists (d :: l).
Qed.

Lemma trim_trimmed s : trimmed (trim s).
Proof.
  unfold trimmed, trim. split.
  - destruct (proj1 (trimStart_fixed (trimStart s)) (trimStart_idem s))
      as [-> | (c & r & -> & Hc)]; [done |].
    unfold trimEnd. simpl.
    destruct (trimStart_snoc (rev r) c Hc) as [l' Hl]. rewrite Hl.
    rewrite rev_app_distr. simpl. by rewrite Hc.
  - unfold trimEnd. by rewrite rev_involutive, trimStart_idem.
Qed.

Lemma trimmed_trim s : trimmed s → trim s = s.
Proof. intros [H1 H2]. unfold trim. by rewrite H1. Qed.

Lemma isCRLF_isWhiteSpace c : isWhiteSpace c = false → isCRLF c = false.
Proof.
  unfold isWhiteSpace, isCRLF. intros H.
  destruct (N.eqb_spec c 0x0D) as [E|_]; [subst c; done |].
  destruct (N.eqb_spec c 0x0A) as [E|_]; [subst c; done | done].
Qed.

Lemma replaceCRLF_snoc fl r c :
  isCRLF c = false → replaceCRLF fl (r ++ [c]) = replaceCRLF fl r ++ [c].
Proof.
  intros Hc. revert fl. induction r as [|d r IH]; intros fl; simpl.
  - by rewrite Hc.
  - destruct (isCRLF d); [destruct fl |]; simpl; by rewrite IH.
Qed.

Lemma replaceCRLF_trimmed s : trimmed s → trimmed (replaceCRLF false s).
Proof.
  intros [H1 H2]. split.
  - apply trimStart_fixed in H1 as [-> | (c & r & -> & Hc)]; [done |].
    simpl. rewrite (isCRLF_isWhiteSpace _ Hc). simpl. by rewrite Hc.
  - apply trimEnd_fixed in H2 as [-> | (c & r & -> & Hc)]; [done |].
    rewrite (replaceCRLF_snoc _ _ _ (isCRLF_isWhiteSpace _ Hc)).
    apply trimEnd_fixed. right. by exists c, (replaceCRLF false r).
Qed.

Lemma escapeHeaderText_trimmed s :
  trimmed s → escapeHeaderText s = replaceCRLF false s.
Proof. intros H. by apply trimmed_trim, replaceCRLF_trimmed. Qed.

Lemma literal_noCRLF s : forallb (λ c, negb (isCRLF c)) s = true → noCRLF s.
Proof.
  intros H. apply noCRLF_Forall, list.Forall_forall. intros c Hc.
  rewrite forallb_forall in H. apply list_elem_of_In, H in Hc.
  by destruct (isCRLF c).
Qed.

Lemma noCRLF_app s t : noCRLF s → noCRLF t → noCRLF (s ++ t).
Proof. rewrite !noCRLF_Forall. apply Forall_app_2. Qed.

Lemma adminSubject_noCRLF s t :
  noCRLF s → noCRLF t → noCRLF (adminSubject s t).
Proof.
  intros Hs Ht. unfold adminSubject.
  repeat apply noCRLF_app; try done; by apply literal_noCRLF.
Qed.

End Sanitise.

(** C6, as the code has it.  For every input string the value
    [escapeHeaderText] returns for the
    header-bound fields contains no carriage return and no newline.  It is
    the trimmed collapse of the input, the collapse being the one string in
    which every maximal run of CR/LF characters of the input is replaced by
    a single space; on a field that is already trimmed, as name and email
    are when the handler sanitises them, it is that collapse itself.  The
    subject of the admin notice, built from the sanitised name and email,
    contains no CR and no LF either. *)
Theorem header_fields_sanitised (s : list N) :
  noCRLF (escapeHeaderText s)
  ∧ (∃ t, collapsed s t ∧ (∀ t', collapsed s t' → t' = t)
          ∧ escapeHeaderText s = trim t)
  ∧ collapsed (trim s) (escapeHeaderText (trim s))
  ∧ (∀ s', noCRLF (adminSubject (escapeHeaderText s) (escapeHeaderText s')))
  ∧ (∀ amb f, noCRLF (subject (adminMailOf amb f))).
Proof.
  split; [apply escapeHeaderText_noCRLF |]. split; [| split; [| split]].
  - exists (replaceCRLF false s). split; [apply replaceCRLF_collapsed |].
    split; [| done]. intros t' Ht'. by apply collapsed_unique.
  - rewrite (escapeHeaderText_trimmed _ (trim_trimmed s)).
    apply replaceCRLF_collapsed.
  - intros s'. apply adminSubject_noCRLF; apply escapeHeaderText_noCRLF.
  - intros amb f. apply adminSubject_noCRLF; apply escapeHeaderText_noCRLF.
Qed.

Lemma header_fields_sanitised_witness :
  noCRLF (escapeHeaderText (js "Evil" ++ [0x0A%N] ++ js "Bcc: attacker@x.com"))
  ∧ escapeHeaderText (js "Evil" ++ [0x0A%N] ++ js "Bcc: attacker@x.com")
    = js "Evil Bcc: attacker@x.com".
Proof.
  split.
  - apply (proj1 (header_fields_sanitised
                    (js "Evil" ++ [0x0A%N] ++ js "Bcc: attacker@x.com"))).
  - reflexivity.
Defined.

(** C6 as the specification states it fails on a run at the edge of the
    input: for a newline followed by "ab" the code returns "ab", the run
    being replaced by a space that the final [trim] then removes, while the
    string in which every maximal CR/LF run is one space is " ab". *)
Lemma edge_run_leaves_no_space :
  ¬ (∀ s : list N,
       noCRLF (escapeHeaderText s) ∧ collapsed s (escapeHeaderText s)).
Proof.
  intros H. destruct (H ([0x0A%N] ++ js "ab")) as [_ Hc].
  apply collapsed_unique in Hc. vm_compute in Hc. discriminate Hc.
Qed.

Example edge_run_value :
  escapeHeaderText ([0x0A%N] ++ js "ab") = js "ab"
  ∧ collapsed ([0x0A%N] ++ js "ab") (js " ab").
Proof.
  split; [reflexivity |].
  apply (collapsed_run [0x0A%N] (js "ab") (js "ab"));
    [done | reflexivity | by intros c s' [= <- _] |].
  repeat (apply collapsed_keep; [reflexivity |]). constructor.
Qed.

(** ** Patterns and tickets *)

Section RegexFacts.

Implicit Types (r : re) (s : list N) (c : N).

Lemma lang_nullable r s : lang r s → s = [] → nullable r = true.
Proof.
  induction 1 as [ | | r1 r2 s1 s2 _ IH1 _ IH2 | r1 r2 s _ IH | r1 r2 s _ IH
                 | | ]; intros E; simpl; try done.
  - apply app_eq_nil in E as [-> ->]. by rewrite IH1, IH2.
  - by rewrite IH.
  - rewrite IH by done. apply orb_true_r.
Qed.

Lemma lang_deriv r s0 :
  lang r s0 → ∀ c s, s0 = c :: s → lang (deriv c r) s.
Proof.
  induction 1 as [ | p c' Hp | r1 r2 s1 s2 H1 IH1 H2 IH2 | r1 r2 s0 _ IH
                 | r1 r2 s0 _ IH | | r1 s1 s2 H1 IH1 H2 IH2 ];
    intros c s E; simpl; try discriminate.
  - injection E as -> <-. rewrite Hp. constructor.
  - destruct s1 as [|c1 s1'].
    + simpl in E. rewrite (lang_nullable _ _ H1 eq_refl).
      apply lang_alt_r. by apply IH2.
    + injection E as -> <-.
      assert (lang (Cat (deriv c r1) r2) (s1' ++ s2)) as Hcat.
      { constructor; [by apply IH1 | done]. }
      destruct (nullable r1); [by apply lang_alt_l | done].
  - apply lang_alt_l. by apply IH.
  - apply lang_alt_r. by apply IH.
  - destruct s1 as [|c1 s1'].
    + simpl in E. by apply IH2.
    + injection E as -> <-. constructor; [by apply IH1 | done].
Qed.

(** Every string of the language is accepted; so a string that [matches]
    refuses is outside the language. *)
Lemma matches_complete r s : lang r s → matches r s = true.
Proof.
  revert r. induction s as [|c s IH]; intros r H; simpl.
  - by eapply lang_nullable.
  - apply IH. by eapply lang_deriv.
Qed.

Lemma lang_star_class (p : N → bool) s :
  forallb p s = true → lang (Star (Cls p)) s.
Proof.
  induction s as [|c s IH]; simpl; intros H; [constructor |].
  apply andb_prop in H as [Hc Hs].
  apply (lang_star_app (Cls p) [c] s); [by constructor | by apply IH].
Qed.

Lemma lang_plus_class (p : N → bool) s :
  s ≠ [] → forallb p s = true → lang (Plus (Cls p)) s.
Proof.
  destruct s as [|c s]; [done |]. simpl. intros _ H.
  apply andb_prop in H as [Hc Hs].
  apply (lang_cat (Cls p) (Star (Cls p)) [c] s);
    [by constructor | by apply lang_star_class].
Qed.

Lemma lang_rep_class (p : N → bool) s :
  forallb p s = true → lang (Rep (length s) (Cls p)) s.
Proof.
  induction s as [|c s IH]; simpl; intros H; [constructor |].
  apply andb_prop in H as [Hc Hs].
  apply (lang_cat (Cls p) (Rep (length s) (Cls p)) [c] s);
    [by constructor | by apply IH].
Qed.

Lemma lang_chr c : lang (Chr c) [c].
Proof. constructor. apply N.eqb_refl. Qed.

End RegexFacts.

Section TicketFacts.

(** The random part is the first six radix-36 digits of the draw, in
    upper case: fewer than six when the rendering has fewer. *)
Lemma randomSuffix_digits (rnd : list N) :
  randomSuffix rnd = map (λ d, upper (digit36 d)) (take 6 rnd).
Proof.
  unfold randomSuffix, toUpperCase, slice, toString36.
  destruct rnd as [|d rnd]; [done |].
  change (js "0." ++ map digit36 (d :: rnd))
    with (0x30%N :: 0x2E%N :: map digit36 (d :: rnd)).
  change (drop 2 (0x30%N :: 0x2E%N :: ?l)) with l.
  change (8 - 2)%nat with 6%nat.
  by rewrite <- fmap_take, <- list_fmap_compose.
Qed.

Lemma randomSuffix_length (rnd : list N) :
  length (randomSuffix rnd) = (length rnd `min` 6)%nat.
Proof.
  rewrite randomSuffix_digits, length_map, length_take. lia.
Qed.

Lemma digit36_upper_class (d : N) :
  (d < 36)%N → isUpperOrDigit (upper (digit36 d)) = true.
Proof.
  intros H. unfold digit36, upper, isUpperOrDigit, isUpper, isDigit.
  destruct (N.ltb_spec d 10).
  - assert ((0x61 <=? 0x30 + d)%N = false) as -> by (apply N.leb_gt; lia).
    simpl. apply orb_true_iff. right. apply andb_true_iff.
    split; apply N.leb_le; lia.
  - assert ((0x61 <=? 0x61 + (d - 10))%N && (0x61 + (d - 10) <=? 0x7A)%N = true)
      as -> by (apply andb_true_iff; split; apply N.leb_le; lia).
    apply orb_true_iff. left. apply andb_true_iff.
    split; apply N.leb_le; lia.
Qed.

Lemma randomSuffix_class (rnd : list N) :
  Forall (λ d, (d < 36)%N) rnd → forallb isUpperOrDigit (randomSuffix rnd) = true.
Proof.
  intros H. rewrite randomSuffix_digits.
  apply (Forall_take _ 6%nat) in H.
  induction H as [|d l Hd _ IH]; [done |]. simpl.
  by rewrite (digit36_upper_class d Hd), IH.
Qed.

Lemma decimal_year_table :
  forallb (λ n, (length (decimal (Z.of_nat n)) =? 4)%nat
                && forallb isDigit (decimal (Z.of_nat n)))
          (seq 1000 (90 * 100)) = true.
Proof. vm_compute. reflexivity. Qed.

Lemma decimal_year (y : Z) :
  1000 <= y <= 9999 →
  length (decimal y) = 4%nat ∧ forallb isDigit (decimal y) = true.
Proof.
  intros Hy. pose proof decimal_year_table as T.
  rewrite forallb_forall in T. specialize (T (Z.to_nat y)).
  rewrite Z2Nat.id in T by lia.
  destruct (andb_prop _ _ (T ltac:(apply in_seq; lia))) as [H1 H2].
  by apply Nat.eqb_eq in H1.
Qed.

Lemma padded_table :
  forallb (λ n, (length (padStart2 (decimal (Z.of_nat n))) =? 2)%nat
                && forallb isDigit (padStart2 (decimal (Z.of_nat n))))
          (seq 0 100) = true.
Proof. vm_compute. reflexivity. Qed.

Lemma padded_two_digits (n : Z) :
  0 <= n <= 99 →
  length (padStart2 (decimal n)) = 2%nat
  ∧ forallb isDigit (padStart2 (decimal n)) = true.
Proof.
  intros Hn. pose proof padded_table as T.
  rewrite forallb_forall in T. specialize (T (Z.to_nat n)).
  rewrite Z2Nat.id in T by lia.
  destruct (andb_prop _ _ (T ltac:(apply in_seq; lia))) as [H1 H2].
  by apply Nat.eqb_eq in H1.
Qed.

(** X22. What the ticket generator does achieve: with a four-digit year and a
    draw whose rendering has at least six fractional digits, the ticket has
    the specified format. *)
Lemma makeTicket_format (d : LocalDate) (rnd : list N) :
  1000 <= getFullYear d <= 9999 → 0 <= getMonth d <= 11 → 1 <= getDate d <= 31 →
  Forall (λ x, (x < 36)%N) rnd → (6 <= length rnd)%nat →
  lang ticketPattern (makeTicket (js "GEONIX") d rnd)
  ∧ length (randomSuffix rnd) = 6%nat.
Proof.
  intros Hy Hm Hd Hrnd Hlen.
  destruct (decimal_year _ Hy) as [Ly Dy].
  destruct (padded_two_digits (getMonth d + 1) ltac:(lia)) as [Lm Dm].
  destruct (padded_two_digits (getDate d) ltac:(lia)) as [Ld Dd].
  assert (length (randomSuffix rnd) = 6%nat) as Lr
    by (rewrite randomSuffix_length; lia).
  split; [| done].
  unfold makeTicket, ticketPattern. fold (randomSuffix rnd).
  set (ymd := decimal (getFullYear d) ++ padStart2 (decimal (getMonth d + 1))
              ++ padStart2 (decimal (getDate d))).
  replace (js "GEONIX" ++ js "-" ++ decimal (getFullYear d)
           ++ padStart2 (decimal (getMonth d + 1))
           ++ padStart2 (decimal (getDate d)) ++ js "-" ++ randomSuffix rnd)
    with (js "GEONIX" ++ js "-" ++ ymd ++ js "-" ++ randomSuffix rnd)
    by (unfold ymd; by rewrite <- !app_assoc).
  apply lang_cat; [by apply lang_plus_class |].
  apply lang_cat; [apply lang_chr |].
  apply lang_cat.
  - replace 8%nat with (length ymd)
      by (unfold ymd; rewrite !length_app; lia).
    apply lang_rep_class. unfold ymd. rewrite !forallb_app.
    by rewrite Dy, Dm, Dd.
  - apply lang_cat; [apply lang_chr |].
    rewrite <- Lr. apply lang_rep_class. by apply randomSuffix_class.
Qed.

End TicketFacts.

(** C3, at an input where the code departs from it.  When [Math.random()]
    returns 0.5, whose radix-36 rendering is [0.i], the handler's ticket for
    10 February 2026 is GEONIX-20260210-I: the random part has one character
    instead of six, and the ticket is outside the specified format. *)
Theorem ticket_suffix_short_draw :
  (value36 [18%N] == 1 # 2)%Q
  ∧ toString36 [18%N] = js "0.i"
  ∧ makeTicket (js "GEONIX") (mkDate 2026 1 10) [18%N] = js "GEONIX-20260210-I"
  ∧ length (randomSuffix [18%N]) = 1%nat
  ∧ ¬ lang ticketPattern (makeTicket (js "GEONIX") (mkDate 2026 1 10) [18%N]).
Proof.
  split; [reflexivity |]. split; [reflexivity |]. split; [reflexivity |].
  split; [reflexivity |].
  intros H. apply matches_complete in H. vm_compute in H. discriminate.
Qed.

Example email_checks :
  isValidEmail (js "a@b.co") = true ∧ isValidEmail (js "not-an-email") = false.
Proof. split; reflexivity. Qed.

Example ticket_of_long_draw :
  makeTicket (js "GEONIX") (mkDate 2026 1 10) [7; 15; 3; 20; 26; 9; 1; 30]%N
  = js "GEONIX-20260210-7F3KQ9".
Proof. reflexivity. Qed.

(** * Further properties of the code *)

(** ** Rate limiter: isolation, quota and retry hints *)

(** X1. A check of one key leaves the entry of every other key as it was, leaves an
    entry for the checked key, and never removes a key: the keys of the table
    afterwards are the keys before plus the checked key. *)
Theorem check_touches_one_key (now : Z) (k : list N) (b : gmap (list N) Entry) :
  (∀ ip, ip ≠ k → (rateLimit now k b).2 !! ip = b !! ip)
  ∧ is_Some ((rateLimit now k b).2 !! k)
  ∧ dom (rateLimit now k b).2 = {[k]} ∪ dom b.
Proof.
  split; [intros ip Hne; by apply rateLimit_other |].
  destruct (rateLimit_cases now k b) as [ | e He _ _ | e He _ _ ]; simpl.
  - rewrite lookup_insert_eq, dom_insert_L. eauto.
  - rewrite He. split; [eauto |]. symmetry.
    apply subseteq_union_1_L, singleton_subseteq_l. by eapply elem_of_dom_2.
  - rewrite lookup_insert_eq, dom_insert_L. eauto.
Qed.

Section Quota.

Implicit Types (ip k : list N) (b : gmap (list N) Entry) (now : Z).

Lemma opens_allowed t0 ip b :
  opens t0 ip b →
  rateLimit t0 ip b = (Allowed, <[ip := mkEntry 1 (t0 + 60000)]> b).
Proof.
  intros [Hn | (e & He & Hgt)];
    [by apply rateLimit_absent | by eapply rateLimit_expired].
Qed.

Lemma in_window_counting ip R ts :
  ∀ b c, b !! ip = Some (mkEntry c R) → 1 <= c →
    Forall (λ t, ¬ t > R) ts →
    outcomes ip (map (λ t, (ip, t)) ts) b
    = imap (λ i t, if decide (Z.of_nat i + c < 3) then Allowed
                   else Denied (R - t)) ts.
Proof.
  induction ts as [|t ts IH]; intros b c Hb Hc Hts; [done |].
  inversion Hts as [|? ? Ht Hts']; subst. simpl.
  destruct (decide (c < 3)) as [Hlt|Hge].
  - erewrite (rateLimit_room t ip b); [| exact Hb | done | simpl; lia].
    rewrite decide_True by done. simpl.
    rewrite decide_True by lia. f_equal.
    rewrite (IH _ (c + 1)); [| apply lookup_insert_eq | lia | exact Hts'].
    apply imap_ext. intros i x _. simpl.
    destruct (decide (Z.of_nat i + (c + 1) < 3)),
             (decide (Z.of_nat (S i) + c < 3)); try done; lia.
  - erewrite (rateLimit_full t ip b); [| exact Hb | done | simpl; lia].
    rewrite decide_True by done. simpl.
    rewrite decide_False by lia. f_equal.
    rewrite (IH _ c); [| exact Hb | exact Hc | exact Hts'].
    apply imap_ext. intros i x _. simpl.
    destruct (decide (Z.of_nat i + c < 3)),
             (decide (Z.of_nat (S i) + c < 3)); try done; lia.
Qed.

End Quota.

(** X2. When a check of a key opens a window (no entry, or an expired one) and
    all later checks of that key fall in that window, whatever checks of other
    keys come in between, the first three checks of the key are allowed and
    every later one is denied with retryAfterMs = windowResetAt - now. *)
Theorem window_quota (ip : list N) (evs : list (list N * Z))
    (b : gmap (list N) Entry) (t0 : Z) (ts : list Z) :
  opens t0 ip b →
  times ip evs = t0 :: ts →
  Forall (in_window t0) ts →
  outcomes ip evs b
  = Allowed :: imap (λ i t, if decide (i < 2)%nat then Allowed
                            else Denied (t0 + 60000 - t)) ts.
Proof.
  intros Ho Ht Hw.
  rewrite (outcomes_local ip evs b b eq_refl), Ht. simpl.
  rewrite (opens_allowed _ _ _ Ho), decide_True by done. f_equal.
  rewrite (in_window_counting ip (t0 + 60000) ts _ 1);
    [| apply lookup_insert_eq | lia |].
  - apply imap_ext. intros i x _. simpl.
    destruct (decide (Z.of_nat i + 1 < 3)), (decide (i < 2)%nat); try done; lia.
  - clear Ht. induction Hw as [|t l [_ H] _ IH]; [constructor |].
    constructor; [by unfold RATE_LIMIT_WINDOW_MS in H | exact IH].
Qed.

Lemma window_quota_witness :
  outcomes (js "a")
    [(js "a", 61001); (js "b", 61002); (js "a", 61003); (js "a", 70000);
     (js "a", 80000); (js "a", 121001)]
    (<[js "a" := mkEntry 3 61000]> ∅)
  = Allowed :: imap (λ i t, if decide (i < 2)%nat then Allowed
                            else Denied (61001 + 60000 - t))
                    [61003; 70000; 80000; 121001].
Proof.
  apply (window_quota (js "a")
           [(js "a", 61001); (js "b", 61002); (js "a", 61003); (js "a", 70000);
            (js "a", 80000); (js "a", 121001)]
           (<[js "a" := mkEntry 3 61000]> ∅) 61001
           [61003; 70000; 80000; 121001]).
  - right. exists (mkEntry 3 61000). split; [reflexivity | simpl; lia].
  - reflexivity.
  - repeat constructor; unfold RATE_LIMIT_WINDOW_MS; lia.
Defined.

Section Horizon.

Implicit Types (ip k : list N) (b : gmap (list N) Entry) (now : Z).

Lemma horizon_step T now ip b :
  horizon T b → T <= now → horizon now (rateLimit now ip b).2.
Proof.
  unfold horizon, RATE_LIMIT_WINDOW_MS. intros Hb Hle k e.
  destruct (rateLimit_cases now ip b) as [ _ | e0 He0 _ _ | e0 He0 _ _ ]; simpl.
  - destruct (decide (ip = k)) as [->|Hne].
    + rewrite lookup_insert_eq. intros [= <-]. simpl. lia.
    + rewrite lookup_insert_ne by done. intros H. specialize (Hb _ _ H). lia.
  - intros H. specialize (Hb _ _ H). lia.
  - destruct (decide (ip = k)) as [->|Hne].
    + rewrite lookup_insert_eq. intros [= <-]. simpl.
      specialize (Hb _ _ He0). lia.
    + rewrite lookup_insert_ne by done. intros H. specialize (Hb _ _ H). lia.
Qed.

Lemma denied_bounds T now ip b ms :
  horizon T b → T <= now → (rateLimit now ip b).1 = Denied ms →
  0 <= ms <= 60000.
Proof.
  unfold horizon, RATE_LIMIT_WINDOW_MS. intros Hb Hle.
  destruct (rateLimit_cases now ip b) as [ | e He Hin _ | ]; simpl;
    try discriminate.
  intros [= <-]. specialize (Hb _ _ He). lia.
Qed.

Lemma run_denied_bounds evs :
  ∀ T b ms, horizon T b → monotone_from T evs →
    Denied ms ∈ (run evs b).1 → 0 <= ms <= 60000.
Proof.
  induction evs as [|[k now] rest IH]; intros T b ms Hb Hm Hin.
  - simpl in Hin. by apply elem_of_nil in Hin.
  - destruct Hm as [Hle Hm]. simpl in Hin.
    pose proof (horizon_step T now k b Hb Hle) as Hb1.
    pose proof (denied_bounds T now k b) as Hd.
    destruct (rateLimit now k b) as [r b1]. simpl in *.
    specialize (IH now b1 ms Hb1 Hm).
    destruct (run rest b1) as [rs b2]. simpl in *.
    apply elem_of_cons in Hin as [Heq | Hin]; [| by apply IH].
    subst r. by eapply Hd.
Qed.

End Horizon.

(** X3. In a run from the empty table under a clock that never goes back, every
    denial carries a retryAfterMs between 0 and 60000. *)
Theorem retry_hint_bounded (evs : list (list N * Z)) (T ms : Z) :
  monotone_from T evs →
  Denied ms ∈ (run evs ∅).1 →
  0 <= ms <= 60000.
Proof.
  intros Hm Hin. eapply (run_denied_bounds evs T ∅); [| done..].
  intros k e H. by rewrite lookup_empty in H.
Qed.

Lemma retry_hint_bounded_witness : 0 <= 59990 <= 60000.
Proof.
  apply (retry_hint_bounded
           [(js "a", 0); (js "a", 1); (js "b", 5); (js "a", 7); (js "a", 10)]
           0 59990).
  - simpl. lia.
  - vm_compute. do 4 right. left.
Defined.

(** ** Handler: every exit *)

Section Outcomes.

Implicit Types (req : Request) (amb : Ambient) (w : World) (f : Fields).

Lemma reachesLimiter_inv req :
  reachesLimiter req = true →
  method req = js "POST" ∧ parsable (body req) = true
  ∧ honeypot (fieldsOf (body req)) = false.
Proof.
  unfold reachesLimiter. intros H.
  apply andb_prop in H as [H Hh]. apply andb_prop in H as [Hm Hp].
  apply bool_decide_eq_true_1 in Hm. by apply negb_true_iff in Hh.
Qed.

(** An admitted request arrives at the field checks with the table
    updated and nothing sent. *)
Lemma front_admitted req amb w :
  admitted req amb w →
  handlerTry req amb w
  = (reject (negb (truthy (input req name)) || negb (truthy (input req email))
             || negb (truthy (input req message)))
            400 (JError missing_fields);;
     reject (negb (isValidEmail (input req email))) 400 (JError invalid_email);;
     reject ((80 <? length (input req name))%nat
             || (120 <? length (input req company))%nat
             || (200 <? length (input req website))%nat
             || (80 <? length (input req phone))%nat)
            400 (JError field_too_long);;
     reject (5000 <? length (input req message))%nat
            400 (JError message_too_long);;
     dispatch amb (input req name) (input req email) (input req message)
       (input req company) (input req website) (input req phone))
    (checked req amb w).
Proof.
  intros [Hreach Hr].
  destruct (reachesLimiter_inv _ Hreach) as (Hm & Hp & Hh).
  unfold handlerTry, input, checked. rewrite Hm.
  rewrite bool_decide_eq_true_2 by done.
  change (negb true) with false. rewrite reject_false_bind.
  destruct (body req) as [ | | f]; [discriminate | |].
  - change (parseBody Nullish ≫= ?k) with (k None). cbv beta.
    simpl in Hh. rewrite Hh, reject_false_bind.
    by rewrite callRateLimit_bind, Hr.
  - change (parseBody (Object f) ≫= ?k) with (k (Some f)). cbv beta.
    simpl in Hh. rewrite Hh, reject_false_bind.
    by rewrite callRateLimit_bind, Hr.
Qed.

Lemma world_eta w : mkWorld (ipBucket w) (sendCalls w) = w.
Proof. by destruct w. Qed.

Lemma ceilSeconds_spec ms :
  ms <= 1000 * ceilSeconds ms < ms + 1000.
Proof.
  unfold ceilSeconds.
  pose proof (Z.div_mod (- ms) 1000 ltac:(lia)) as E.
  pose proof (Z.mod_pos_bound (- ms) 1000 ltac:(lia)) as B. lia.
Qed.

End Outcomes.

Section Walk.

Implicit Types (req : Request) (amb : Ambient) (w : World).

Lemma handler_not_post req amb w :
  method req ≠ js "POST" →
  handler req amb w = (mkResponse 405 None (JError method_not_allowed), w).
Proof.
  intros Hm. unfold handler, handlerTry.
  rewrite bool_decide_eq_false_2 by done.
  change (negb false) with true. by rewrite reject_true_bind.
Qed.

Lemma handler_unparsable req amb w :
  method req = js "POST" → body req = Unparsable →
  handler req amb w = (mkResponse 500 None (JError send_failed), w).
Proof.
  intros Hm Hb. unfold handler, handlerTry. rewrite Hm, Hb.
  rewrite bool_decide_eq_true_2 by done.
  change (negb true) with false. by rewrite reject_false_bind.
Qed.

Lemma handler_honeypot req amb w :
  method req = js "POST" → parsable (body req) = true →
  honeypot (fieldsOf (body req)) = true →
  handler req amb w = (mkResponse 200 None JOk, w).
Proof.
  intros Hm Hp Hh. unfold handler, handlerTry. rewrite Hm.
  rewrite bool_decide_eq_true_2 by done.
  change (negb true) with false. rewrite reject_false_bind.
  destruct (body req) as [ | | f]; [discriminate | |].
  - change (parseBody Nullish ≫= ?k) with (k None). cbv beta.
    simpl in Hh. by rewrite Hh, reject_true_bind.
  - change (parseBody (Object f) ≫= ?k) with (k (Some f)). cbv beta.
    simpl in Hh. by rewrite Hh, reject_true_bind.
Qed.

Lemma denied_same_table (now : Z) (ip : list N) (b : gmap (list N) Entry) (ms : Z) :
  (rateLimit now ip b).1 = Denied ms → (rateLimit now ip b).2 = b.
Proof.
  intros H. destruct (rateLimit_cases now ip b); simpl in *;
    try discriminate; done.
Qed.

Lemma handler_denied req amb w ms :
  reachesLimiter req = true →
  (rateLimit (clock amb) (clientIp req) (ipBucket w)).1 = Denied ms →
  handler req amb w
  = (mkResponse 429 (Some (ceilSeconds ms)) (JError rate_limited), w).
Proof.
  intros Hreach Hd.
  destruct (reachesLimiter_inv _ Hreach) as (Hm & Hp & Hh).
  pose proof (denied_same_table _ _ _ _ Hd) as Hsame.
  unfold handler, handlerTry. rewrite Hm.
  rewrite bool_decide_eq_true_2 by done.
  change (negb true) with false. rewrite reject_false_bind.
  destruct (body req) as [ | | f]; [discriminate | |].
  - change (parseBody Nullish ≫= ?k) with (k None). cbv beta.
    simpl in Hh. rewrite Hh, reject_false_bind.
    by rewrite callRateLimit_bind, Hd, Hsame, world_eta.
  - change (parseBody (Object f) ≫= ?k) with (k (Some f)). cbv beta.
    simpl in Hh. rewrite Hh, reject_false_bind.
    by rewrite callRateLimit_bind, Hd, Hsame, world_eta.
Qed.

End Walk.

(** X4. A request whose method is not POST is answered with status 405 and error
    method_not_allowed; the rate-limit table is not touched and nothing is
    sent. *)
Theorem other_methods_refused (req : Request) (amb : Ambient) (w : World) :
  method req ≠ js "POST" →
  handler req amb w = (mkResponse 405 None (JError method_not_allowed), w).
Proof. apply handler_not_post. Qed.

Lemma other_methods_refused_witness :
  handler (mkRequest (js "GET") Nullish None None)
          (Sample.ambient Sample.fullEnv Sample.relayUp) Sample.emptyWorld
  = (mkResponse 405 None (JError method_not_allowed), Sample.emptyWorld).
Proof.
  apply (other_methods_refused (mkRequest (js "GET") Nullish None None)).
  vm_compute. discriminate.
Defined.

(** X5. A POST whose string body does not parse is answered, through the catch
    block, with status 500 and error send_failed although no send was tried;
    the rate-limit table is not touched. *)
Theorem unparsable_body_is_send_failed (req : Request) (amb : Ambient) (w : World) :
  method req = js "POST" → body req = Unparsable →
  handler req amb w = (mkResponse 500 None (JError send_failed), w).
Proof. apply handler_unparsable. Qed.

Lemma unparsable_body_is_send_failed_witness :
  handler (mkRequest (js "POST") Unparsable None None)
          (Sample.ambient Sample.fullEnv Sample.relayUp) Sample.emptyWorld
  = (mkResponse 500 None (JError send_failed), Sample.emptyWorld).
Proof.
  apply (unparsable_body_is_send_failed (mkRequest (js "POST") Unparsable None None));
    reflexivity.
Defined.

(** X6. A request that reaches the rate limiter and is denied gets status 429,
    error rate_limited and a Retry-After header holding retryAfterMs rounded
    up to whole seconds; the table and the send calls are unchanged. *)
Theorem rate_limited_response (req : Request) (amb : Ambient) (w : World) (ms : Z) :
  reachesLimiter req = true →
  (rateLimit (clock amb) (clientIp req) (ipBucket w)).1 = Denied ms →
  ∃ seconds,
    handler req amb w
    = (mkResponse 429 (Some seconds) (JError rate_limited), w)
    ∧ 0 <= ms ∧ ms <= 1000 * seconds < ms + 1000.
Proof.
  intros Hreach Hd. exists (ceilSeconds ms).
  split; [by apply handler_denied |].
  pose proof (ceilSeconds_spec ms).
  destruct (rateLimit_cases (clock amb) (clientIp req) (ipBucket w))
    as [ | e He Hin _ | ]; simpl in *; try discriminate.
  injection Hd as <-. lia.
Qed.

Lemma rate_limited_response_witness :
  let req := Sample.request (Sample.fieldsWith (js "Hello")) in
  let amb := Sample.ambient Sample.fullEnv Sample.relayUp in
  let w := mkWorld (<[js "203.0.113.7" := mkEntry 3 1770681630000]> ∅) [] in
  ∃ seconds,
    handler req amb w
    = (mkResponse 429 (Some seconds) (JError rate_limited), w)
    ∧ 0 <= 30000 ∧ 30000 <= 1000 * seconds < 30000 + 1000.
Proof.
  intros req amb w.
  apply (rate_limited_response req amb w 30000); reflexivity.
Defined.







(** X10. An admitted request that passes the other checks and whose message
    exceeds 5000 characters gets status 400 with error message_too_long. *)
Theorem long_message_rejected (req : Request) (amb : Ambient) (w : World) :
  admitted req amb w →
  input req name ≠ [] →
  isValidEmail (input req email) = true →
  (length (input req name) <= 80 ∧ length (input req company) <= 120
   ∧ length (input req website) <= 200 ∧ length (input req phone) <= 80)%nat →
  (5000 < length (input req message))%nat →
  handler req amb w
  = (mkResponse 400 None (JError message_too_long), checked req amb w).
Proof.
  intros Ha Hn Hok (Hnl & Hcl & Hwl & Hpl) Hlong.
  unfold handler. rewrite (front_admitted _ _ _ Ha).
  assert (input req message ≠ []) as Hm by (intros E; rewrite E in Hlong; simpl in Hlong; lia).
  rewrite (truthy_true _ Hn), (truthy_true _ Hm),
    (truthy_true _ (isValidEmail_nonempty _ Hok)), Hok.
  change (negb true || negb true || negb true) with false.
  change (negb true) with false. rewrite !reject_false_bind.
  rewrite (proj2 (Nat.ltb_ge _ _) Hnl), (proj2 (Nat.ltb_ge _ _) Hcl),
    (proj2 (Nat.ltb_ge _ _) Hwl), (proj2 (Nat.ltb_ge _ _) Hpl).
  change (false || false || false || false) with false.
  rewrite reject_false_bind, (proj2 (Nat.ltb_lt _ _) Hlong).
  by rewrite reject_true_bind.
Qed.

Lemma long_message_rejected_witness :
  let f := mkFields None (Some (Sample.letters 80)) (Some (js "a@b.co"))
                    (Some (Sample.letters (50 * 100 + 1))) None None None in
  let req := Sample.request f in
  let amb := Sample.ambient Sample.fullEnv Sample.relayUp in
  handler req amb Sample.emptyWorld
  = (mkResponse 400 None (JError message_too_long),
     checked req amb Sample.emptyWorld).
Proof.
  intros f req amb.
  apply (long_message_rejected req amb Sample.emptyWorld);
    [split; reflexivity | vm_compute; discriminate | reflexivity
    | vm_compute; lia | vm_compute; lia].
Defined.

(** X11. For an accepted submission with the relay accepting both sends, the
    response is status 200 with the ticket, and exactly two send calls are
    added, the admin notice and then the acknowledgement: the notice goes to
    MAIL_TO with reply-to the submitter, the acknowledgement goes to the
    submitter with reply-to MAIL_TO. *)
Theorem submission_delivered (req : Request) (amb : Ambient) (w : World)
    (f : Fields) :
  accepted req amb w f → configured (env amb) →
  relay amb (adminMailOf amb f) = true → relay amb (ackMailOf amb f) = true →
  handler req amb w
  = (mkResponse 200 None
       (JOkTicket (makeTicket (js "GEONIX") (today amb) (random amb))),
     mkWorld (rateLimit (clock amb) (clientIp req) (ipBucket w)).2
             (sendCalls w ++ [adminMailOf amb f; ackMailOf amb f]))
  ∧ to (adminMailOf amb f) = orEmpty (MAIL_TO (env amb))
  ∧ replyTo (adminMailOf amb f) = trim (orEmpty (email f))
  ∧ to (ackMailOf amb f) = trim (orEmpty (email f))
  ∧ replyTo (ackMailOf amb f) = orEmpty (MAIL_TO (env amb)).
Proof.
  intros Hacc Hc Hadmin Hack. split; [| done]. unfold handler.
  rewrite (front_accepted _ _ _ _ Hacc), (dispatch_configured _ _ _ _ _ _ _ _ Hc).
  fold (adminMailOf amb f). fold (ackMailOf amb f). by rewrite Hadmin, Hack.
Qed.

Lemma submission_delivered_witness :
  let f := Sample.fieldsWith (js "Please call me back.") in
  let req := Sample.request f in
  let amb := Sample.ambient Sample.fullEnv Sample.relayUp in
  handler req amb Sample.emptyWorld
  = (mkResponse 200 None
       (JOkTicket (makeTicket (js "GEONIX") (today amb) (random amb))),
     mkWorld (rateLimit (clock amb) (clientIp req) (ipBucket Sample.emptyWorld)).2
             (sendCalls Sample.emptyWorld ++ [adminMailOf amb f; ackMailOf amb f]))
  ∧ to (adminMailOf amb f) = orEmpty (MAIL_TO (env amb))
  ∧ replyTo (adminMailOf amb f) = trim (orEmpty (email f))
  ∧ to (ackMailOf amb f) = trim (orEmpty (email f))
  ∧ replyTo (ackMailOf amb f) = orEmpty (MAIL_TO (env amb)).
Proof.
  intros f req amb.
  apply (submission_delivered req amb Sample.emptyWorld f);
    [accept_by_evaluation | repeat split | reflexivity | reflexivity].
Defined.

(** X12. When the admin notice is sent and the acknowledgement is rejected, the
    response is status 500 with error send_failed although the admin notice
    has gone out: both send calls are recorded. *)
Theorem ack_send_failure (req : Request) (amb : Ambient) (w : World)
    (f : Fields) :
  accepted req amb w f → configured (env amb) →
  relay amb (adminMailOf amb f) = true → relay amb (ackMailOf amb f) = false →
  handler req amb w
  = (mkResponse 500 None (JError send_failed),
     mkWorld (rateLimit (clock amb) (clientIp req) (ipBucket w)).2
             (sendCalls w ++ [adminMailOf amb f; ackMailOf amb f])).
Proof.
  intros Hacc Hc Hadmin Hack. unfold handler.
  rewrite (front_accepted _ _ _ _ Hacc), (dispatch_configured _ _ _ _ _ _ _ _ Hc).
  fold (adminMailOf amb f). fold (ackMailOf amb f). by rewrite Hadmin, Hack.
Qed.

Lemma ack_send_failure_witness :
  let f := Sample.fieldsWith (js "Please call me back.") in
  let req := Sample.request f in
  let amb := Sample.ambient Sample.fullEnv
               (λ m, bool_decide (to m = js "admin@example.com")) in
  handler req amb Sample.emptyWorld
  = (mkResponse 500 None (JError send_failed),
     mkWorld (rateLimit (clock amb) (clientIp req) (ipBucket Sample.emptyWorld)).2
             (sendCalls Sample.emptyWorld ++ [adminMailOf amb f; ackMailOf amb f])).
Proof.
  intros f req amb.
  apply (ack_send_failure req amb Sample.emptyWorld f);
    [accept_by_evaluation | repeat split | reflexivity | reflexivity].
Defined.



(** Splits on the next [reject] of the handler's chain. *)
Ltac split_reject :=
  match goal with
  | |- context [(reject ?c _ _ ;; _) _] =>
    destruct c eqn:?; [rewrite reject_true_bind | rewrite reject_false_bind]
  | |- context [(sendMail ?rl ?m ;; _) _] =>
    rewrite (sendMail_bind rl m); destruct (rl m) eqn:?
  end.

(** Walks the handler down to each of its exits. *)
Ltac walk_handler req amb w :=
  destruct (decide (method req = js "POST")) as [?Hm | ?Hm];
  [| rewrite (handler_not_post req amb w) by assumption ];
  [ destruct (parsable (body req)) eqn:?Hp;
    [| rewrite (handler_unparsable req amb w)
         by (try assumption; destruct (body req); (done || discriminate)) ];
    [ destruct (honeypot (fieldsOf (body req))) eqn:?Hh;
      [ rewrite (handler_honeypot req amb w) by assumption
      | assert (reachesLimiter req = true) as ?Hreach
          by (unfold reachesLimiter; rewrite bool_decide_eq_true_2 by assumption;
              match goal with H : parsable _ = true |- _ => rewrite H end;
              match goal with H : honeypot _ = false |- _ => rewrite H end;
              reflexivity);
        destruct (rateLimit (clock amb) (clientIp req) (ipBucket w)).1 eqn:?Hrl;
        [ unfold handler;
          rewrite (front_admitted req amb w) by (split; assumption);
          unfold dispatch; repeat split_reject
        | erewrite (handler_denied req amb w) by eassumption ] ]
    | ]
  | ].

(** X13. Whatever the request, the handler only appends to the send calls, at
    most two of them; a status of 200 comes either with the bare {ok:true} and
    no send or with a ticket and exactly two sends; and the status is one of
    200, 400, 405, 429 and 500. *)
Theorem handler_sends_at_most_two (req : Request) (amb : Ambient) (w : World) :
  ∃ new,
    sendCalls (handler req amb w).2 = sendCalls w ++ new
    ∧ (length new <= 2)%nat
    ∧ (status (handler req amb w).1 = 200 →
       json (handler req amb w).1 = JOk ∧ new = []
       ∨ ∃ t, json (handler req amb w).1 = JOkTicket t ∧ length new = 2%nat)
    ∧ status (handler req amb w).1 ∈ [200; 400; 405; 429; 500].
Proof.
  walk_handler req amb w; cbn [fst snd sendCalls status json checked mret M_ret].
  all: try (exists []; rewrite app_nil_r; repeat split;
            [simpl; lia | try discriminate; eauto | set_solver]).
  all: try (eexists [_]; repeat split;
            [simpl; lia | try discriminate; eauto | set_solver]).
  all: try (eexists [_; _]; rewrite <- app_assoc; repeat split;
            [simpl; lia | try discriminate; eauto | set_solver]).
Qed.

(** X14. The handler performs the rate-limit check exactly for the requests that
    are POST, parse, and have an empty honeypot: for those the table afterwards
    is the table after one check of the client key, also when validation, the
    configuration or a send fails later; for all others it is unchanged. *)
Theorem quota_consumption (req : Request) (amb : Ambient) (w : World) :
  ipBucket (handler req amb w).2
  = if reachesLimiter req
    then (rateLimit (clock amb) (clientIp req) (ipBucket w)).2
    else ipBucket w.
Proof.
  walk_handler req amb w;
    cbn [fst snd ipBucket checked mret M_ret];
    try (match goal with H : reachesLimiter _ = true |- _ => rewrite H end);
    try done.
  all: unfold reachesLimiter.
  all: try rewrite bool_decide_eq_false_2 by assumption.
  all: try rewrite bool_decide_eq_true_2 by assumption.
  all: repeat match goal with H : parsable _ = _ |- _ => rewrite H end.
  all: repeat match goal with H : honeypot _ = _ |- _ => rewrite H end.
  all: try done.
  symmetry. by eapply denied_same_table.
Qed.

(** ** Client key, e-mail pattern, sanitising, mail bodies, tickets *)

Section TrimFacts.

Implicit Types (s k pre post : list N) (c : N).

Lemma trimStart_blank_prefix pre s :
  forallb isWhiteSpace pre = true → trimStart (pre ++ s) = trimStart s.
Proof.
  induction pre as [|c pre IH]; [done |]. simpl. intros H.
  apply andb_prop in H as [-> H]. by apply IH.
Qed.

Lemma trimStart_blank s : forallb isWhiteSpace s = true → trimStart s = [].
Proof. intros H. rewrite <- (app_nil_r s). by rewrite trimStart_blank_prefix. Qed.

Lemma trimEnd_blank_suffix s post :
  forallb isWhiteSpace post = true → trimEnd (s ++ post) = trimEnd s.
Proof.
  intros H. unfold trimEnd. rewrite rev_app_distr.
  rewrite trimStart_blank_prefix; [done |].
  rewrite forallb_forall in *. intros c Hc. apply H. by apply in_rev.
Qed.

Lemma trim_padded pre k post :
  trimmed k → forallb isWhiteSpace pre = true →
  forallb isWhiteSpace post = true → trim (pre ++ k ++ post) = k.
Proof.
  intros [H1 H2] Hpre Hpost. unfold trim.
  rewrite (trimStart_blank_prefix _ _ Hpre).
  apply trimStart_fixed in H1 as H1'.
  destruct H1' as [-> | (c & r & -> & Hc)].
  - simpl. by rewrite (trimStart_blank _ Hpost).
  - simpl. rewrite Hc.
    change (c :: r ++ post) with ((c :: r) ++ post).
    by rewrite (trimEnd_blank_suffix _ _ Hpost).
Qed.

Lemma before_comma_app s rest :
  forallb (λ c, negb (c =? 0x2C)%N) s = true →
  before_comma (s ++ 0x2C%N :: rest) = s.
Proof.
  induction s as [|c s IH]; simpl; [done |]. intros H.
  apply andb_prop in H as [Hc H]. apply negb_true_iff in Hc.
  by rewrite Hc, IH.
Qed.

Lemma before_comma_none s :
  forallb (λ c, negb (c =? 0x2C)%N) s = true → before_comma s = s.
Proof.
  induction s as [|c s IH]; simpl; [done |]. intros H.
  apply andb_prop in H as [Hc H]. apply negb_true_iff in Hc.
  by rewrite Hc, IH.
Qed.

Lemma blank_no_comma s :
  forallb isWhiteSpace s = true → forallb (λ c, negb (c =? 0x2C)%N) s = true.
Proof.
  rewrite !forallb_forall. intros H c Hc. specialize (H c Hc).
  destruct (N.eqb_spec c 0x2C) as [E|_]; [by subst c | done].
Qed.

End TrimFacts.

(** X15. When the first comma-separated entry of the forwarded-for header is a
    non-blank string, the client key is that entry without its surrounding
    white space, whatever follows the first comma and whatever the socket
    address is. *)
Theorem forwarded_key (req : Request) (pre k post : list N) :
  trimmed k → k ≠ [] →
  forallb (λ c, negb (c =? 0x2C)%N) k = true →
  forallb isWhiteSpace pre = true → forallb isWhiteSpace post = true →
  (x_forwarded_for req = Some (pre ++ k ++ post)
   ∨ ∃ rest, x_forwarded_for req = Some ((pre ++ k ++ post) ++ 0x2C%N :: rest)) →
  clientIp req = k.
Proof.
  intros Hk Hne Hc Hpre Hpost Hx.
  assert (forallb (λ c, negb (c =? 0x2C)%N) (pre ++ k ++ post) = true) as Hall.
  { by rewrite !forallb_app, Hc, (blank_no_comma _ Hpre), (blank_no_comma _ Hpost). }
  unfold clientIp.
  destruct Hx as [-> | [rest ->]].
  - rewrite (before_comma_none _ Hall), (trim_padded _ _ _ Hk Hpre Hpost).
    by rewrite (truthy_true _ Hne).
  - rewrite (before_comma_app _ _ Hall), (trim_padded _ _ _ Hk Hpre Hpost).
    by rewrite (truthy_true _ Hne).
Qed.

Lemma forwarded_key_witness :
  clientIp (mkRequest (js "POST") Nullish
              (Some ((js " " ++ js "203.0.113.7" ++ js " ") ++ 0x2C%N :: js " 10.0.0.1"))
              (Some (js "192.0.2.1")))
  = js "203.0.113.7".
Proof.
  apply (forwarded_key _ (js " ") (js "203.0.113.7") (js " "));
    [split; reflexivity | vm_compute; discriminate | reflexivity..
    | right; by exists (js " 10.0.0.1")].
Defined.

(** X16. Without a forwarded-for header, or with one whose first entry is blank,
    the client key is the socket address, or "unknown" when there is none. *)
Theorem socket_key (req : Request) :
  (x_forwarded_for req = None
   ∨ ∃ h, x_forwarded_for req = Some h
          ∧ forallb isWhiteSpace (before_comma h) = true) →
  clientIp req = default (js "unknown") (remoteAddress req).
Proof.
  intros [Hx | (h & Hx & Hb)]; unfold clientIp; rewrite Hx; [done |].
  assert (trim (before_comma h) = []) as E
    by (unfold trim; by rewrite (trimStart_blank _ Hb)).
  by rewrite E.
Qed.

Lemma socket_key_witness :
  clientIp (mkRequest (js "POST") Nullish (Some (js "  , 10.0.0.1"))
                      (Some (js "192.0.2.1")))
  = default (js "unknown") (Some (js "192.0.2.1"))
  ∧ clientIp (mkRequest (js "POST") Nullish None None)
    = default (js "unknown") None.
Proof.
  split.
  - apply (socket_key (mkRequest (js "POST") Nullish (Some (js "  , 10.0.0.1"))
                                 (Some (js "192.0.2.1")))).
    right. exists (js "  , 10.0.0.1"). split; reflexivity.
  - apply (socket_key (mkRequest (js "POST") Nullish None None)). by left.
Defined.

Section EmailFacts.

Implicit Types (r : re) (s : list N) (c : N).

Lemma nullable_lang r : nullable r = true → lang r [].
Proof.
  induction r as [ | | p | r1 IH1 r2 IH2 | r1 IH1 r2 IH2 | r IH]; simpl;
    intros H; try discriminate.
  - constructor.
  - apply andb_prop in H as [H1 H2].
    apply (lang_cat r1 r2 [] []); auto.
  - apply orb_prop in H as [H | H];
      [apply lang_alt_l | apply lang_alt_r]; auto.
  - constructor.
Qed.

Lemma deriv_lang c r : ∀ s, lang (deriv c r) s → lang r (c :: s).
Proof.
  induction r as [ | | p | r1 IH1 r2 IH2 | r1 IH1 r2 IH2 | r IH]; simpl;
    intros s H.
  - inversion H.
  - inversion H.
  - destruct (p c) eqn:E; inversion H; subst. by constructor.
  - destruct (nullable r1) eqn:E.
    + inversion H as [ | | | ? ? ? H' | ? ? ? H' | | ]; subst.
      * inversion H' as [ | | ? ? s1 s2 Ha Hb | | | | ]; subst.
        apply (lang_cat r1 r2 (c :: s1) s2); auto.
      * apply (lang_cat r1 r2 [] (c :: s)); [by apply nullable_lang | auto].
    + inversion H as [ | | ? ? s1 s2 Ha Hb | | | | ]; subst.
      apply (lang_cat r1 r2 (c :: s1) s2); auto.
  - inversion H; subst; [apply lang_alt_l | apply lang_alt_r]; auto.
  - inversion H as [ | | ? ? s1 s2 Ha Hb | | | | ]; subst.
    apply (lang_star_app r (c :: s1) s2); auto.
Qed.

(** Every accepted string is in the language. *)
Lemma matches_sound r s : matches r s = true → lang r s.
Proof.
  revert r. induction s as [|c s IH]; intros r H; simpl in H.
  - by apply nullable_lang.
  - by apply deriv_lang, IH.
Qed.

Lemma lang_cls_inv (p : N → bool) s :
  lang (Cls p) s → ∃ c, s = [c] ∧ p c = true.
Proof. intros H. inversion H; subst. eauto. Qed.

Lemma lang_star_class_inv r s :
  lang r s → ∀ p : N → bool, r = Star (Cls p) → forallb p s = true.
Proof.
  induction 1 as [ | | | | | | r1 s1 s2 H1 _ H2 IH2]; intros q E;
    try discriminate; [done |].
  injection E as ->. apply lang_cls_inv in H1 as (c & -> & Hc).
  simpl. by rewrite Hc, (IH2 q eq_refl).
Qed.

Lemma lang_plus_class_inv (p : N → bool) s :
  lang (Plus (Cls p)) s → s ≠ [] ∧ forallb p s = true.
Proof.
  intros H. inversion H as [ | | ? ? s1 s2 Ha Hb | | | | ]; subst.
  apply lang_cls_inv in Ha as (c & -> & Hc).
  split; [done |]. simpl.
  by rewrite Hc, (lang_star_class_inv _ _ Hb p eq_refl).
Qed.

Lemma lang_chr_inv c s : lang (Chr c) s → s = [c].
Proof.
  intros H. apply lang_cls_inv in H as (c' & -> & Hc).
  apply N.eqb_eq in Hc. by subst.
Qed.

Lemma notSpaceNorAt_not_space c :
  notSpaceNorAt c = true → isWhiteSpace c = false.
Proof.
  unfold notSpaceNorAt. intros H. apply andb_prop in H as [H _].
  by apply negb_true_iff in H.
Qed.

End EmailFacts.

(** X17. isValidEmail accepts exactly the strings of the form a@b.c in which a, b
    and c are non-empty and contain neither white space nor @ (b and c may
    contain further dots). *)
Theorem valid_email_shape (s : list N) :
  isValidEmail s = true
  ↔ ∃ a b c, s = a ++ [0x40%N] ++ b ++ [0x2E%N] ++ c
             ∧ a ≠ [] ∧ b ≠ [] ∧ c ≠ []
             ∧ forallb notSpaceNorAt a = true
             ∧ forallb notSpaceNorAt b = true
             ∧ forallb notSpaceNorAt c = true.
Proof.
  unfold isValidEmail, emailPattern. split.
  - intros H. apply matches_sound in H.
    inversion H as [ | | ? ? a s1 Ha H1 | | | | ]; subst.
    inversion H1 as [ | | ? ? at' s2 Hat H2 | | | | ]; subst.
    inversion H2 as [ | | ? ? b s3 Hb H3 | | | | ]; subst.
    inversion H3 as [ | | ? ? dot c Hdot Hc | | | | ]; subst.
    apply lang_chr_inv in Hat as ->. apply lang_chr_inv in Hdot as ->.
    apply lang_plus_class_inv in Ha as [? ?].
    apply lang_plus_class_inv in Hb as [? ?].
    apply lang_plus_class_inv in Hc as [? ?].
    by exists a, b, c.
  - intros (a & b & c & -> & Ha & Hb & Hc & Pa & Pb & Pc).
    apply matches_complete.
    apply lang_cat; [by apply lang_plus_class |].
    apply lang_cat; [apply lang_chr |].
    apply lang_cat; [by apply lang_plus_class |].
    apply lang_cat; [apply lang_chr | by apply lang_plus_class].
Qed.

Lemma valid_email_shape_witness :
  ∃ a b c, js "minsu@example.co.kr" = a ++ [0x40%N] ++ b ++ [0x2E%N] ++ c
           ∧ a ≠ [] ∧ b ≠ [] ∧ c ≠ []
           ∧ forallb notSpaceNorAt a = true
           ∧ forallb notSpaceNorAt b = true
           ∧ forallb notSpaceNorAt c = true.
Proof.
  apply (valid_email_shape (js "minsu@example.co.kr")). reflexivity.
Defined.

Section NeutralFacts.

Implicit Types (s : list N) (c : N).

Lemma replaceCRLF_clean fl s :
  Forall (λ c, isCRLF c = false) s → replaceCRLF fl s = s.
Proof.
  intros H. revert fl. induction H as [|c r Hc _ IH]; intros fl; [done |].
  simpl. by rewrite Hc, IH.
Qed.

Lemma no_space_trimmed s :
  Forall (λ c, isWhiteSpace c = false) s → trimmed s.
Proof.
  intros H. split.
  - apply trimStart_fixed. destruct H as [|c r Hc _]; [by left |].
    right. by exists c, r.
  - apply trimEnd_fixed. destruct (rev s) as [|c r] eqn:E.
    + left. by rewrite <- (rev_involutive s), E.
    + right. exists c, (rev r). split.
      * by rewrite <- (rev_involutive s), E.
      * apply Forall_rev in H. rewrite E in H. by inversion H.
Qed.

Lemma no_space_neutral s :
  Forall (λ c, isWhiteSpace c = false) s →
  trim s = s ∧ escapeHeaderText s = s ∧ noCRLF s.
Proof.
  intros H.
  assert (Forall (λ c, isCRLF c = false) s) as Hcr.
  { induction H as [|c r Hc _ IH]; constructor; [| done].
    by apply isCRLF_isWhiteSpace. }
  pose proof (no_space_trimmed s H) as Ht.
  split; [by apply trimmed_trim |]. split; [| by apply noCRLF_Forall].
  unfold escapeHeaderText. rewrite (replaceCRLF_clean _ _ Hcr).
  by apply trimmed_trim.
Qed.

Lemma class_no_space s :
  forallb notSpaceNorAt s = true → Forall (λ c, isWhiteSpace c = false) s.
Proof.
  induction s as [|c s IH]; simpl; intros H; [constructor |].
  apply andb_prop in H as [Hc H].
  constructor; [by apply notSpaceNorAt_not_space | by apply IH].
Qed.

End NeutralFacts.

(** X18. An email that isValidEmail accepts contains exactly one @ and no white
    space, so no CR or LF: trimming and escapeHeaderText leave it as it is. *)
Theorem valid_email_needs_no_sanitising (s : list N) :
  isValidEmail s = true →
  trim s = s ∧ escapeHeaderText s = s ∧ noCRLF s
  ∧ length (filter (λ c, c = 0x40%N) s) = 1%nat.
Proof.
  intros H. apply matches_sound in H. unfold emailPattern in H.
  inversion H as [ | | ? ? a s1 Ha H1 | | | | ]; subst.
  inversion H1 as [ | | ? ? at' s2 Hat H2 | | | | ]; subst.
  inversion H2 as [ | | ? ? b s3 Hb H3 | | | | ]; subst.
  inversion H3 as [ | | ? ? dot c Hdot Hc | | | | ]; subst.
  apply lang_chr_inv in Hat as ->. apply lang_chr_inv in Hdot as ->.
  apply lang_plus_class_inv in Ha as [_ Pa].
  apply lang_plus_class_inv in Hb as [_ Pb].
  apply lang_plus_class_inv in Hc as [_ Pc].
  assert (∀ l, forallb notSpaceNorAt l = true → filter (λ c, c = 0x40%N) l = [])
    as Hno.
  { induction l as [|x l IH]; simpl; intros Hl; [done |].
    apply andb_prop in Hl as [Hx Hl].
    rewrite filter_cons_False; [by apply IH |].
    intros ->. by vm_compute in Hx. }
  assert (Forall (λ c, isWhiteSpace c = false)
                 (a ++ [0x40%N] ++ b ++ [0x2E%N] ++ c)) as Hs.
  { repeat apply Forall_app_2; try by apply class_no_space.
    all: by repeat constructor. }
  destruct (no_space_neutral _ Hs) as (? & ? & ?).
  repeat split; try done.
  rewrite !list.filter_app, (Hno a Pa), (Hno b Pb), (Hno c Pc). reflexivity.
Qed.

Lemma valid_email_needs_no_sanitising_witness :
  trim (js "a@b.co") = js "a@b.co"
  ∧ escapeHeaderText (js "a@b.co") = js "a@b.co"
  ∧ noCRLF (js "a@b.co")
  ∧ length (filter (λ c, c = 0x40%N) (js "a@b.co")) = 1%nat.
Proof.
  apply (valid_email_needs_no_sanitising (js "a@b.co")). reflexivity.
Defined.

(** X19. escapeHeaderText is idempotent, and its result has no surrounding white
    space. *)
Theorem escapeHeaderText_idempotent (s : list N) :
  escapeHeaderText (escapeHeaderText s) = escapeHeaderText s
  ∧ trimmed (escapeHeaderText s).
Proof.
  assert (trimmed (escapeHeaderText s)) as Ht by apply trim_trimmed.
  split; [| done].
  unfold escapeHeaderText at 1.
  rewrite replaceCRLF_clean; [by apply trimmed_trim |].
  apply noCRLF_Forall, escapeHeaderText_noCRLF.
Qed.

(** X20. For a non-empty message, the body of the admin notice is the ticket
    line, the name line, the email line, one line for each non-empty optional
    field (company, phone, website, in this order), the line "Message:" and
    the message, joined by newlines: filter(Boolean) drops the empty separator
    entries of the template as well as the empty optional fields. *)
Theorem admin_body_has_no_blank_lines
    (user to ticket name email company phone website message : list N) :
  message ≠ [] →
  text (adminMail user to ticket name email company phone website message)
  = join newline
      ([js "[접수번호] " ++ ticket; js "Name: " ++ name; js "Email: " ++ email]
       ++ (if truthy company then [js "Company: " ++ company] else [])
       ++ (if truthy phone then [js "Phone: " ++ phone] else [])
       ++ (if truthy website then [js "Website: " ++ website] else [])
       ++ [js "Message:"; message]).
Proof.
  intros Hm. destruct message as [|m0 mr]; [done |].
  unfold adminMail, adminLines, labelled. cbn [text]. f_equal.
  destruct (truthy company), (truthy phone), (truthy website);
    repeat first
      [ rewrite filter_cons_True by reflexivity
      | rewrite filter_cons_False by (intros E; discriminate E)
      | rewrite filter_nil ];
    reflexivity.
Qed.

Lemma admin_body_has_no_blank_lines_witness :
  text (adminMail (js "u") (js "t") (js "T") (js "Kim") (js "k@x.io") []
                  (js "010") [] (js "Hi"))
  = join newline
      ([js "[접수번호] " ++ js "T"; js "Name: " ++ js "Kim";
        js "Email: " ++ js "k@x.io"]
       ++ (if truthy [] then [js "Company: " ++ []] else [])
       ++ (if truthy (js "010") then [js "Phone: " ++ js "010"] else [])
       ++ (if truthy [] then [js "Website: " ++ []] else [])
       ++ [js "Message:"; js "Hi"]).
Proof.
  apply (admin_body_has_no_blank_lines (js "u") (js "t") (js "T") (js "Kim")
           (js "k@x.io") [] (js "010") [] (js "Hi")).
  vm_compute. discriminate.
Defined.

(** X21. A ticket is the prefix, a hyphen, the date digits, a hyphen and a random
    part made of the first up to six radix-36 digits of the draw in upper case:
    the random part consists of A-Z and 0-9, never has more than six characters,
    and has six exactly when the rendering has at least six digits. *)
Theorem ticket_suffix_shape (prefix : list N) (d : LocalDate) (rnd : list N) :
  Forall (λ x, (x < 36)%N) rnd →
  makeTicket prefix d rnd
  = prefix ++ js "-"
      ++ (decimal (getFullYear d) ++ padStart2 (decimal (getMonth d + 1))
          ++ padStart2 (decimal (getDate d)))
      ++ js "-" ++ randomSuffix rnd
  ∧ length (randomSuffix rnd) = (length rnd `min` 6)%nat
  ∧ forallb isUpperOrDigit (randomSuffix rnd) = true
  ∧ (length (randomSuffix rnd) = 6%nat ↔ (6 <= length rnd)%nat).
Proof.
  intros H. split; [| split; [| split]].
  - unfold makeTicket. fold (randomSuffix rnd). by rewrite <- !app_assoc.
  - apply randomSuffix_length.
  - by apply randomSuffix_class.
  - rewrite randomSuffix_length. lia.
Qed.

Lemma ticket_suffix_shape_witness :
  makeTicket (js "GEONIX") (mkDate 2026 1 10) [9; 0]%N
  = js "GEONIX" ++ js "-"
      ++ (decimal 2026 ++ padStart2 (decimal (1 + 1)) ++ padStart2 (decimal 10))
      ++ js "-" ++ randomSuffix [9; 0]%N
  ∧ length (randomSuffix [9; 0]%N) = (length [9; 0]%N `min` 6)%nat
  ∧ forallb isUpperOrDigit (randomSuffix [9; 0]%N) = true
  ∧ (length (randomSuffix [9; 0]%N) = 6%nat ↔ (6 <= length [9; 0]%N)%nat).
Proof.
  apply (ticket_suffix_shape (js "GEONIX") (mkDate 2026 1 10) [9; 0]%N).
  repeat constructor.
Defined.

Lemma makeTicket_format_witness :
  lang ticketPattern
    (makeTicket (js "GEONIX") (mkDate 2026 1 10) [7; 15; 3; 20; 26; 9; 1; 30]%N)
  ∧ length (randomSuffix [7; 15; 3; 20; 26; 9; 1; 30]%N) = 6%nat.
Proof.
  apply (makeTicket_format (mkDate 2026 1 10) [7; 15; 3; 20; 26; 9; 1; 30]%N);
    [simpl; lia | simpl; lia | simpl; lia | repeat constructor | simpl; lia].
Defined.

(** ** Diagnostic endpoint and language preference *)

Section DiagnosticFacts.

Import Diagnostic.

Implicit Types (method : list N) (e : ProcessEnv) (tr : Transport)
  (calls : list Call).

Lemma diagnostic_ready e tr calls :
  ready e →
  diagnostic (js "POST") e tr calls
  = match verify tr with
    | Some err => (failed err, calls ++ [CallVerify])
    | None =>
      match send tr (testMail e) with
      | inl err => (failed err, calls ++ [CallVerify; CallSend (testMail e)])
      | inr messageId =>
        (mkDiag 200 (DOk messageId),
         calls ++ [CallVerify; CallSend (testMail e)])
      end
    end.
Proof.
  intros (Hh & Hp & Hu & Hpw). unfold diagnostic.
  rewrite bool_decide_eq_true_2 by done. by rewrite Hh, Hp, Hu, Hpw.
Qed.

Lemma diagnostic_not_ready e tr calls :
  ¬ ready e →
  diagnostic (js "POST") e tr calls
  = (mkDiag 500 (DMissingEnv (missing (MAIL_HOST e)) (missing (MAIL_PORT e))
                             (missing (MAIL_USER e)) (missing (MAIL_PASS e))),
     calls).
Proof.
  intros Hn. unfold diagnostic. rewrite bool_decide_eq_true_2 by done.
  change (negb true) with false. cbv zeta iota.
  destruct (missing (MAIL_HOST e)) eqn:Hh, (missing (MAIL_PORT e)) eqn:Hp,
    (missing (MAIL_USER e)) eqn:Hu, (missing (MAIL_PASS e)) eqn:Hpw;
    try reflexivity.
  destruct Hn. by repeat split.
Qed.

Lemma diagnostic_not_post method e tr calls :
  method ≠ js "POST" →
  diagnostic method e tr calls = (mkDiag 405 DMethodNotAllowed, calls).
Proof.
  intros Hm. unfold diagnostic. by rewrite bool_decide_eq_false_2 by done.
Qed.

Lemma ready_dec e : ready e ∨ ¬ ready e.
Proof.
  unfold ready.
  destruct (missing (MAIL_HOST e)), (missing (MAIL_PORT e)),
    (missing (MAIL_USER e)), (missing (MAIL_PASS e));
    (by left) || (right; intros (? & ? & ? & ?); discriminate).
Qed.

End DiagnosticFacts.

(** X23. The diagnostic endpoint does not touch the transport unless the method is
    POST and MAIL_HOST, MAIL_PORT, MAIL_USER and MAIL_PASS are all present: a
    non-POST request gets 405, and a POST with one of them missing gets 500
    with the four missing flags. *)
Theorem diagnostic_stops_before_transport (method : list N) (e : ProcessEnv)
    (tr : Diagnostic.Transport) (calls : list Diagnostic.Call) :
  method ≠ js "POST" ∨ ¬ Diagnostic.ready e →
  (Diagnostic.diagnostic method e tr calls).2 = calls
  ∧ (method ≠ js "POST" →
     (Diagnostic.diagnostic method e tr calls).1
     = Diagnostic.mkDiag 405 Diagnostic.DMethodNotAllowed)
  ∧ (method = js "POST" →
     (Diagnostic.diagnostic method e tr calls).1
     = Diagnostic.mkDiag 500
         (Diagnostic.DMissingEnv (missing (MAIL_HOST e)) (missing (MAIL_PORT e))
                                 (missing (MAIL_USER e)) (missing (MAIL_PASS e)))).
Proof.
  intros H. destruct (decide (method = js "POST")) as [-> | Hm].
  - destruct H as [H | H]; [done |].
    rewrite (diagnostic_not_ready _ _ _ H). by repeat split.
  - rewrite (diagnostic_not_post _ _ _ _ Hm). by repeat split.
Qed.

Lemma diagnostic_stops_before_transport_witness :
  let e := mkEnv (Some (js "smtp.example.com")) None None
                 (Some (js "u@example.com")) (Some []) None in
  let tr := Diagnostic.mkTransport None (λ _, inr (js "id-1")) in
  (Diagnostic.diagnostic (js "POST") e tr []).2 = []
  ∧ (js "POST" ≠ js "POST" →
     (Diagnostic.diagnostic (js "POST") e tr []).1
     = Diagnostic.mkDiag 405 Diagnostic.DMethodNotAllowed)
  ∧ (js "POST" = js "POST" →
     (Diagnostic.diagnostic (js "POST") e tr []).1
     = Diagnostic.mkDiag 500
         (Diagnostic.DMissingEnv (missing (MAIL_HOST e)) (missing (MAIL_PORT e))
                                 (missing (MAIL_USER e)) (missing (MAIL_PASS e)))).
Proof.
  intros e tr.
  apply (diagnostic_stops_before_transport (js "POST") e tr []).
  right. intros (_ & H & _). discriminate H.
Defined.

(** X24. Whatever the request, the diagnostic endpoint appends to the transport
    calls nothing, or one verify, or one verify followed by one send of the
    test mail; a status of 200 comes only with both; when verify throws there
    is no send; and the status is one of 200, 405 and 500. *)
Theorem diagnostic_call_order (method : list N) (e : ProcessEnv)
    (tr : Diagnostic.Transport) (calls : list Diagnostic.Call) :
  ∃ new,
    (Diagnostic.diagnostic method e tr calls).2 = calls ++ new
    ∧ (new = [] ∨ new = [Diagnostic.CallVerify]
       ∨ new = [Diagnostic.CallVerify;
                Diagnostic.CallSend (Diagnostic.testMail e)])
    ∧ (Diagnostic.d_status (Diagnostic.diagnostic method e tr calls).1 = 200 →
       new = [Diagnostic.CallVerify;
              Diagnostic.CallSend (Diagnostic.testMail e)])
    ∧ (is_Some (Diagnostic.verify tr) → length new <= 1)%nat
    ∧ Diagnostic.d_status (Diagnostic.diagnostic method e tr calls).1
      ∈ [200; 405; 500].
Proof.
  destruct (decide (method = js "POST")) as [-> | Hm];
    [destruct (ready_dec e) as [Hr | Hr] |].
  - rewrite (diagnostic_ready _ _ _ Hr).
    destruct (Diagnostic.verify tr) as [err|] eqn:Hv;
      [exists [Diagnostic.CallVerify]
      | destruct (Diagnostic.send tr (Diagnostic.testMail e)) as [err | id];
        eexists [_; _] ];
      simpl; split_and!;
      try done; try (by auto); try (intros; simpl; lia);
      try (by intros [? ?]); set_solver.
  - rewrite (diagnostic_not_ready _ _ _ Hr). exists []. simpl.
    rewrite app_nil_r. split_and!;
      try done; try (by auto); try (intros; simpl; lia); set_solver.
  - rewrite (diagnostic_not_post _ _ _ _ Hm). exists []. simpl.
    rewrite app_nil_r. split_and!;
      try done; try (by auto); try (intros; simpl; lia); set_solver.
Qed.

(** When verify throws, the diagnostic endpoint answers 500 with the error
    text (the message of the thrown value, or its string form when it has no
    message) and its code, response and command; the test mail is not sent. *)
Theorem diagnostic_verify_failure (e : ProcessEnv) (tr : Diagnostic.Transport)
    (calls : list Diagnostic.Call) (err : Diagnostic.Thrown) :
  Diagnostic.ready e → Diagnostic.verify tr = Some err →
  Diagnostic.diagnostic (js "POST") e tr calls
  = (Diagnostic.mkDiag 500
       (Diagnostic.DFailed
          (if missing (Diagnostic.e_message err) then Diagnostic.e_string err
           else orEmpty (Diagnostic.e_message err))
          (Diagnostic.e_code err) (Diagnostic.e_response err)
          (Diagnostic.e_command err)),
     calls ++ [Diagnostic.CallVerify]).
Proof.
  intros Hr Hv. by rewrite (diagnostic_ready _ _ _ Hr), Hv.
Qed.

Lemma diagnostic_verify_failure_witness :
  let err := Diagnostic.mkThrown (Some (js "Invalid login")) (js "Error: Invalid login")
               (Some (js "EAUTH")) (Some (js "535 5.7.8 Authentication failed"))
               (Some (js "AUTH PLAIN")) in
  let e := mkEnv (Some (js "smtp.example.com")) (Some (js "465")) None
                 (Some (js "u@example.com")) (Some (js "bad")) None in
  let tr := Diagnostic.mkTransport (Some err) (λ _, inr (js "id-1")) in
  Diagnostic.diagnostic (js "POST") e tr []
  = (Diagnostic.mkDiag 500
       (Diagnostic.DFailed
          (if missing (Diagnostic.e_message err) then Diagnostic.e_string err
           else orEmpty (Diagnostic.e_message err))
          (Diagnostic.e_code err) (Diagnostic.e_response err)
          (Diagnostic.e_command err)),
     [] ++ [Diagnostic.CallVerify]).
Proof.
  intros err e tr.
  apply (diagnostic_verify_failure e tr [] err); [repeat split | reflexivity].
Defined.

(** X25. With the four variables present and the transport working, the diagnostic
    endpoint answers 200 with the message id of one test mail, sent from
    MAIL_USER to MAIL_TO, or to MAIL_USER when MAIL_TO is missing; neither
    address is empty. *)
Theorem diagnostic_test_mail (e : ProcessEnv) (tr : Diagnostic.Transport)
    (calls : list Diagnostic.Call) (id : list N) :
  Diagnostic.ready e → Diagnostic.verify tr = None →
  Diagnostic.send tr (Diagnostic.testMail e) = inr id →
  Diagnostic.diagnostic (js "POST") e tr calls
  = (Diagnostic.mkDiag 200 (Diagnostic.DOk id),
     calls ++ [Diagnostic.CallVerify;
               Diagnostic.CallSend (Diagnostic.testMail e)])
  ∧ Diagnostic.t_from (Diagnostic.testMail e) = orEmpty (MAIL_USER e)
  ∧ Diagnostic.t_to (Diagnostic.testMail e)
    = (if missing (MAIL_TO e) then orEmpty (MAIL_USER e)
       else orEmpty (MAIL_TO e))
  ∧ Diagnostic.t_from (Diagnostic.testMail e) ≠ []
  ∧ Diagnostic.t_to (Diagnostic.testMail e) ≠ [].
Proof.
  intros Hr Hv Hs. rewrite (diagnostic_ready _ _ _ Hr), Hv, Hs.
  destruct Hr as (_ & _ & Hu & _).
  unfold Diagnostic.testMail, Diagnostic.orElse. cbn [Diagnostic.t_from Diagnostic.t_to].
  destruct (MAIL_USER e) as [[|u0 ur]|]; try discriminate.
  destruct (MAIL_TO e) as [[|t0 tr']|]; by repeat split.
Qed.

Lemma diagnostic_test_mail_witness :
  let e := Sample.envWithoutTo in
  let e' := mkEnv (MAIL_HOST e) (Some (js "465")) None (MAIL_USER e)
                  (MAIL_PASS e) (MAIL_TO e) in
  let tr := Diagnostic.mkTransport None (λ _, inr (js "id-1")) in
  Diagnostic.diagnostic (js "POST") e' tr []
  = (Diagnostic.mkDiag 200 (Diagnostic.DOk (js "id-1")),
     [] ++ [Diagnostic.CallVerify;
            Diagnostic.CallSend (Diagnostic.testMail e')])
  ∧ Diagnostic.t_from (Diagnostic.testMail e') = orEmpty (MAIL_USER e')
  ∧ Diagnostic.t_to (Diagnostic.testMail e')
    = (if missing (MAIL_TO e') then orEmpty (MAIL_USER e')
       else orEmpty (MAIL_TO e'))
  ∧ Diagnostic.t_from (Diagnostic.testMail e') ≠ []
  ∧ Diagnostic.t_to (Diagnostic.testMail e') ≠ [].
Proof.
  intros e e' tr.
  apply (diagnostic_test_mail e' tr [] (js "id-1"));
    [repeat split | reflexivity | reflexivity].
Defined.

(** X26. With MAIL_TO missing and the other variables present, the diagnostic
    endpoint reports success (its test mail goes to MAIL_USER) while the
    contact handler answers every accepted submission with 500
    server_not_configured. *)
Theorem diagnostic_passes_without_MAIL_TO (req : Request) (amb : Ambient)
    (w : World) (f : Fields) (tr : Diagnostic.Transport)
    (calls : list Diagnostic.Call) (id : list N) :
  accepted req amb w f →
  Diagnostic.ready (env amb) → missing (MAIL_TO (env amb)) = true →
  Diagnostic.verify tr = None →
  Diagnostic.send tr (Diagnostic.testMail (env amb)) = inr id →
  (Diagnostic.diagnostic (js "POST") (env amb) tr calls).1
  = Diagnostic.mkDiag 200 (Diagnostic.DOk id)
  ∧ Diagnostic.t_to (Diagnostic.testMail (env amb)) = orEmpty (MAIL_USER (env amb))
  ∧ handler req amb w
    = (mkResponse 500 None (JError server_not_configured), checked req amb w).
Proof.
  intros Hacc Hr Hto Hv Hs. split; [| split].
  - by rewrite (diagnostic_ready _ _ _ Hr), Hv, Hs.
  - unfold Diagnostic.testMail, Diagnostic.orElse. cbn [Diagnostic.t_to].
    by rewrite Hto.
  - unfold handler. rewrite (front_accepted _ _ _ _ Hacc).
    rewrite dispatch_unconfigured; [done |]. rewrite Hto.
    by rewrite !orb_true_r.
Qed.

Lemma diagnostic_passes_without_MAIL_TO_witness :
  let f := Sample.fieldsWith (js "Please call me back.") in
  let req := Sample.request f in
  let e := mkEnv (Some (js "smtp.example.com")) (Some (js "465")) None
                 (Some (js "noreply@example.com")) (Some (js "secret")) None in
  let amb := Sample.ambient e Sample.relayUp in
  let tr := Diagnostic.mkTransport None (λ _, inr (js "id-1")) in
  (Diagnostic.diagnostic (js "POST") (env amb) tr []).1
  = Diagnostic.mkDiag 200 (Diagnostic.DOk (js "id-1"))
  ∧ Diagnostic.t_to (Diagnostic.testMail (env amb)) = orEmpty (MAIL_USER (env amb))
  ∧ handler req amb Sample.emptyWorld
    = (mkResponse 500 None (JError server_not_configured),
       checked req amb Sample.emptyWorld).
Proof.
  intros f req e amb tr.
  apply (diagnostic_passes_without_MAIL_TO req amb Sample.emptyWorld f tr []
           (js "id-1"));
    [accept_by_evaluation | repeat split | reflexivity | reflexivity
    | reflexivity].
Defined.

(** X27. With MAIL_PORT missing and the other variables present, the contact
    handler delivers an accepted submission (status 200) while the diagnostic
    endpoint answers 500 with only the port flagged as missing. *)
Theorem contact_passes_without_MAIL_PORT (req : Request) (amb : Ambient)
    (w : World) (f : Fields) (tr : Diagnostic.Transport)
    (calls : list Diagnostic.Call) :
  accepted req amb w f → configured (env amb) →
  missing (MAIL_PORT (env amb)) = true →
  relay amb (adminMailOf amb f) = true → relay amb (ackMailOf amb f) = true →
  status (handler req amb w).1 = 200
  ∧ Diagnostic.diagnostic (js "POST") (env amb) tr calls
    = (Diagnostic.mkDiag 500 (Diagnostic.DMissingEnv false true false false),
       calls).
Proof.
  intros Hacc Hc Hport Hadmin Hack. split.
  - unfold handler.
    rewrite (front_accepted _ _ _ _ Hacc), (dispatch_configured _ _ _ _ _ _ _ _ Hc).
    fold (adminMailOf amb f). fold (ackMailOf amb f). by rewrite Hadmin, Hack.
  - rewrite diagnostic_not_ready.
    + destruct Hc as (-> & -> & -> & _). by rewrite Hport.
    + intros (_ & H & _). congruence.
Qed.

Lemma contact_passes_without_MAIL_PORT_witness :
  let f := Sample.fieldsWith (js "Please call me back.") in
  let req := Sample.request f in
  let amb := Sample.ambient Sample.fullEnv Sample.relayUp in
  let tr := Diagnostic.mkTransport None (λ _, inr (js "id-1")) in
  status (handler req amb Sample.emptyWorld).1 = 200
  ∧ Diagnostic.diagnostic (js "POST") (env amb) tr []
    = (Diagnostic.mkDiag 500 (Diagnostic.DMissingEnv false true false false), []).
Proof.
  intros f req amb tr.
  apply (contact_passes_without_MAIL_PORT req amb Sample.emptyWorld f tr []);
    [accept_by_evaluation | repeat split | reflexivity | reflexivity
    | reflexivity].
Defined.

Section LanguageFacts.

Import Language.

Implicit Types (b : Browser) (l : Lang) (st : Lang * Browser).

Lemma effect_reflects b0 l b :
  (∀ k, k ≠ STORAGE_KEY → localStorage b !! k = localStorage b0 !! k) →
  reflects b0 (l, effect l b).
Proof.
  intros Hk. unfold reflects, effect. simpl. split; [by destruct l |].
  split; [apply lookup_insert_eq |].
  intros k Hne. rewrite lookup_insert_ne by done. by apply Hk.
Qed.

Lemma mount_reflects b : reflects b (mount b).
Proof. by apply effect_reflects. Qed.

Lemma update_reflects b0 a st : reflects b0 st → reflects b0 (update a st).
Proof.
  intros H. unfold update. case_bool_decide; [done |].
  apply effect_reflects. by destruct H as (_ & _ & H).
Qed.

Lemma updates_reflects b0 acts :
  ∀ st, reflects b0 st → reflects b0 (updates acts st).
Proof.
  induction acts as [|a acts IH]; intros st H; [done |].
  simpl. by apply IH, update_reflects.
Qed.

Lemma reflects_initial b0 st : reflects b0 st → initial (Some st.2) = st.1.
Proof.
  intros (_ & H & _). unfold initial. rewrite H. by destruct st.1.
Qed.

Lemma reflects_effect b0 st : reflects b0 st → effect st.1 st.2 = st.2.
Proof.
  intros (Hh & Hs & _). unfold effect. destruct st as [l [store html]].
  simpl in *. rewrite (insert_id _ _ _ Hs). f_equal.
  rewrite Hh. by destruct l.
Qed.

End LanguageFacts.

(** X28. After mounting the provider and any sequence of setLanguage and
    toggleLanguage calls, the language read back from localStorage by a fresh
    initialisation is the current language, and mounting again on the resulting
    browser state gives the same state. *)
Theorem language_survives_reload (b : Language.Browser)
    (acts : list Language.Action) :
  Language.initial (Some (Language.updates acts (Language.mount b)).2)
  = (Language.updates acts (Language.mount b)).1
  ∧ (Language.mount (Language.updates acts (Language.mount b)).2)
    = Language.updates acts (Language.mount b).
Proof.
  pose proof (updates_reflects b acts _ (mount_reflects b)) as H.
  set (st := Language.updates acts (Language.mount b)) in *.
  pose proof (reflects_initial _ _ H) as Hi. split; [done |].
  unfold Language.mount. rewrite Hi, (reflects_effect _ _ H).
  by destruct st.
Qed.

(** X29. After mounting and any sequence of updates, the lang attribute of the
    document and the stored value under geonix_language both equal the current
    language, and every other localStorage key is as it was. *)
Theorem language_touches_one_key (b : Language.Browser)
    (acts : list Language.Action) :
  let st := Language.updates acts (Language.mount b) in
  Language.htmlLang st.2 = Language.code st.1
  ∧ Language.localStorage st.2 !! Language.STORAGE_KEY
    = Some (Language.code st.1)
  ∧ ∀ k, k ≠ Language.STORAGE_KEY →
         Language.localStorage st.2 !! k = Language.localStorage b !! k.
Proof. exact (updates_reflects b acts _ (mount_reflects b)). Qed.

(** X30. In any state reached by mounting and updating, toggling the
    language changes it, and toggling twice restores both the language and the
    browser state. *)
Theorem toggle_twice_restores (b : Language.Browser)
    (acts : list Language.Action) :
  let st := Language.updates acts (Language.mount b) in
  Language.update Language.ToggleLanguage
    (Language.update Language.ToggleLanguage st) = st
  ∧ (Language.update Language.ToggleLanguage st).1 ≠ st.1.
Proof.
  intros st.
  pose proof (updates_reflects b acts _ (mount_reflects b)) as H.
  fold st in H. destruct H as (Hh & Hs & _).
  destruct st as [l [store html]]. simpl in *.
  unfold Language.update. simpl.
  destruct l; simpl; (split; [| done]);
    unfold Language.effect; simpl; f_equal;
    rewrite insert_insert_eq, (insert_id _ _ _ Hs); by rewrite Hh.
Qed.

(** The initial language is English exactly when there is a window whose
    localStorage holds "en" under geonix_language; in every other case (no
    window, no stored value, any other stored value) it is Korean. *)
Theorem initial_language (window : option Language.Browser) :
  (Language.initial window = Language.en
   ↔ ∃ b, window = Some b
          ∧ Language.localStorage b !! Language.STORAGE_KEY = Some (js "en"))
  ∧ (Language.initial window = Language.ko
     ↔ ¬ ∃ b, window = Some b
              ∧ Language.localStorage b !! Language.STORAGE_KEY = Some (js "en")).
Proof.
  assert (Language.initial window = Language.en
          ↔ ∃ b, window = Some b
                 ∧ Language.localStorage b !! Language.STORAGE_KEY = Some (js "en"))
    as Hen.
  { unfold Language.initial. destruct window as [b|].
    - destruct (Language.localStorage b !! Language.STORAGE_KEY) as [s|] eqn:E.
      + destruct (decide (s = js "en")) as [-> | Hne].
        * split; [| done]. intros _. by exists b.
        * rewrite (bool_decide_eq_false_2 _ Hne). simpl.
          split; [by destruct (bool_decide (s = js "ko")) |].
          intros (b' & [= <-] & E'). congruence.
      + split; [done |]. intros (b' & [= <-] & E'). congruence.
    - split; [done |]. by intros (b' & ? & _). }
  split; [done |]. rewrite <- Hen.
  destruct (Language.initial window); split; done.
Qed.
